(** * A shallow embedding of the [controller] package

    The package couples a rate-limited work queue to a pool of workers that
    feed keys to a [Reconciler].  This development embeds the package's
    functions as Rocq functions over explicit state and proves the
    properties its specification states about them. *)

From Stdlib Require Import ZArith QArith Lia.
From stdpp Require Import base option list gmap strings pretty.

Local Open Scope Z_scope.

(** ** Durations

    [time.Duration] is an [int64] count of nanoseconds.  It is held in [Z],
    and every arithmetic operation on it wraps around to the signed 64-bit
    range as Go's does. *)

Definition Duration := Z.

Definition minInt64 : Z := - 2 ^ 63.
Definition maxInt64 : Z := 2 ^ 63 - 1.

Definition wrap64 (z : Z) : Z := (z + 2 ^ 63) mod 2 ^ 64 - 2 ^ 63.

Definition inInt64 (z : Z) : Prop := minInt64 <= z <= maxInt64.

Definition dur_add (a b : Duration) : Duration := wrap64 (a + b).
Definition dur_mul (a b : Duration) : Duration := wrap64 (a * b).

Definition Nanosecond : Duration := 1.
Definition Microsecond : Duration := dur_mul 1000 Nanosecond.
Definition Millisecond : Duration := dur_mul 1000 Microsecond.
Definition Second : Duration := dur_mul 1000 Millisecond.
Definition Minute : Duration := dur_mul 60 Second.
Definition Hour : Duration := dur_mul 60 Minute.

(** [DefaultResyncPeriod = 10 * time.Hour] *)
Definition DefaultResyncPeriod : Duration := dur_mul 10 Hour.

(** ** Resource keys *)

(** [types.NamespacedName] *)
Record NamespacedName := mkNamespacedName {
  Namespace : string;
  Name : string
}.

#[global] Instance NamespacedName_eq_dec : EqDecision NamespacedName.
Proof. solve_decision. Defined.

#[global] Instance NamespacedName_countable : Countable NamespacedName.
Proof.
  refine (inj_countable' (fun k => (Namespace k, Name k))
                         (fun p => mkNamespacedName p.1 p.2) _).
  intros []; reflexivity.
Defined.

(** [NamespacedName.String]: namespace, the separator ['/'], name. *)
Definition NamespacedName_String (n : NamespacedName) : string :=
  Namespace n +:+ "/" +:+ Name n.

Definition safeKey (key : NamespacedName) : string :=
  if decide (Namespace key = "") then Name key
  else NamespacedName_String key.

(** ** Errors

    A Go [error] is an interface value; what matters to this package is its
    dynamic type.  [errorString] stands for the errors of [errors.New] and
    [fmt.Errorf], [wrapError] for an error wrapping another one with the
    [%w] verb, and [permanentError] is the package's own struct, whose field
    [e] may be nil. *)

#[warnings="-register-all"]
Inductive error : Type :=
  | errorString (msg : string)
  | wrapError (msg : string) (inner : error)
  | permanentError (e : option error).

#[global] Instance error_eq_dec : EqDecision error.
Proof.
  refine (fix go (x y : error) {struct x} : Decision (x = y) :=
    match x, y with
    | errorString a, errorString b => cast_if (decide (a = b))
    | wrapError a i, wrapError b j =>
        cast_if_and (decide (a = b)) (go i j)
    | permanentError None, permanentError None => left _
    | permanentError (Some i), permanentError (Some j) => cast_if (go i j)
    | _, _ => right _
    end); abstract congruence.
Defined.

Definition NewPermanentError (err : option error) : error :=
  permanentError err.

(** The type switch of [IsPermanentError] looks at the dynamic type of the
    interface value only; a nil interface takes the default branch. *)
Definition IsPermanentError (err : option error) : bool :=
  match err with
  | Some (permanentError _) => true
  | _ => false
  end.

(** The [Error] method: the message text of an error. *)
Fixpoint Error (err : error) : string :=
  match err with
  | errorString msg => msg
  | wrapError msg _ => msg
  | permanentError None => ""
  | permanentError (Some e) => Error e
  end.

(** ** Objects

    The part of [metav1] the package reads: an object's namespace, name,
    labels and owner references. *)

Module metav1.

Record OwnerReference := mkOwnerReference {
  APIVersion : string;
  Kind : string;
  Name : string;
  Controller : option bool   (* a [*bool]: [None] is the nil pointer *)
}.

Record Object := mkObject {
  GetNamespace : string;
  GetName : string;
  GetLabels : gmap string string;
  GetOwnerReferences : list OwnerReference
}.

Definition isController (ref : OwnerReference) : bool :=
  match Controller ref with
  | Some true => true
  | _ => false
  end.

(** [GetControllerOf] walks the owner references in order and returns the
    first one whose [Controller] pointer is set and true. *)
Fixpoint GetControllerOfNoCopy (refs : list OwnerReference)
  : option OwnerReference :=
  match refs with
  | [] => None
  | ref :: rest =>
      if isController ref then Some ref else GetControllerOfNoCopy rest
  end.

Definition GetControllerOf (controllee : Object) : option OwnerReference :=
  GetControllerOfNoCopy (GetOwnerReferences controllee).

End metav1.

(** An [interface{}] value handed to an event handler: an object, a
    [cache.DeletedFinalStateUnknown] tombstone around some value, or a value
    of any other type. *)
Inductive any : Type :=
  | AnObject (o : metav1.Object)
  | DeletedFinalStateUnknown (Key : string) (Obj : any)
  | AnOther (repr : string).

(** [FilterWithName] and [FilterWithNameAndNamespace]: the type assertion
    [obj.(metav1.Object)] fails for a tombstone and for any other value. *)
Definition FilterWithName (name : string) : any -> bool :=
  fun obj =>
    match obj with
    | AnObject object => bool_decide (name = metav1.GetName object)
    | _ => false
    end.

Definition FilterWithNameAndNamespace (namespace name : string) : any -> bool :=
  fun obj =>
    match obj with
    | AnObject object =>
        bool_decide (name = metav1.GetName object)
        && bool_decide (namespace = metav1.GetNamespace object)
    | _ => false
    end.

(** Modelled from the spec: [DeletionHandlingAccessor] is defined in a file of
    this package that is not part of the sources at hand.  The specification
    describes it as an accessor tolerant of delete-tombstone wrappers, which
    extracts namespace and name even through the wrapper; a value that is
    neither an object nor a tombstone around an object yields an error. *)
Definition DeletionHandlingAccessor (obj : any) : metav1.Object + error :=
  match obj with
  | AnObject o => inl o
  | DeletedFinalStateUnknown _ (AnObject o) => inl o
  | DeletedFinalStateUnknown _ _ =>
      inr (errorString "the object that the tombstone contained is not an accessor")
  | AnOther _ => inr (errorString "could not get an accessor from the object")
  end.

(** ** Logging

    The sugared logger is an external capability; it is modelled by the
    sequence of entries written to it.  Entries written through a logger
    derived with [With] carry the fields that were attached. *)

Inductive Level := DebugLevel | InfoLevel | ErrorLevel.

Inductive LogArg :=
  | LStr (s : string)
  | LInt (n : Z)
  | LDur (d : Duration)
  | LErr (e : error).

Record LogEntry := mkLogEntry {
  level : Level;
  template : string;
  args : list LogArg;
  fields : list (string * string)
}.

Record Logger := mkLogger {
  attached : list (string * string);   (* fields added by [With] *)
  sink : list LogEntry                 (* entries written, oldest first *)
}.

Definition log (lvl : Level) (tmpl : string) (xs : list LogArg) (l : Logger)
  : Logger :=
  {| attached := attached l;
     sink := sink l ++ [mkLogEntry lvl tmpl xs (attached l)] |}.

Definition Logger_With (kvs : list (string * string)) (l : Logger) : Logger :=
  {| attached := attached l ++ kvs; sink := sink l |}.

Module logging.
Definition TraceId : string := "traceid".
Definition Key : string := "key".
End logging.

(** ** Contexts

    A [context.Context] is a chain of key/value bindings; [Value] returns the
    value of the innermost binding of a key.  The key types
    [resyncPeriodKey], [erKey] and the logger key are unexported, so a
    binding under one of them can only come from the matching [With...]
    function and always holds a value of the matching type. *)

Inductive EventRecorder := mkEventRecorder (name : string).

Inductive binding :=
  | resyncPeriodKey (resync : Duration)
  | erKey (er : option EventRecorder)
  | loggerKey (l : list (string * string))
  | otherKey (k v : string).

Definition Context := list binding.

Definition Background : Context := [].
Definition TODO : Context := [].

Fixpoint Value_resyncPeriodKey (ctx : Context) : option Duration :=
  match ctx with
  | [] => None
  | resyncPeriodKey d :: _ => Some d
  | _ :: parent => Value_resyncPeriodKey parent
  end.

Fixpoint Value_erKey (ctx : Context) : option EventRecorder :=
  match ctx with
  | [] => None
  | erKey er :: _ => er
  | _ :: parent => Value_erKey parent
  end.

Definition WithValue (ctx : Context) (k v : string) : Context :=
  otherKey k v :: ctx.

Definition WithResyncPeriod (ctx : Context) (resync : Duration) : Context :=
  resyncPeriodKey resync :: ctx.

Definition GetResyncPeriod (ctx : Context) : Duration :=
  match Value_resyncPeriodKey ctx with
  | None => DefaultResyncPeriod
  | Some rp => rp
  end.

Definition GetTrackerLease (ctx : Context) : Duration :=
  dur_mul 3 (GetResyncPeriod ctx).

Definition WithEventRecorder (ctx : Context) (er : option EventRecorder)
  : Context :=
  erKey er :: ctx.

Definition GetEventRecorder (ctx : Context) : option EventRecorder :=
  Value_erKey ctx.

Definition WithLogger (ctx : Context) (l : Logger) : Context :=
  loggerKey (attached l) :: ctx.

(** ** The work queue interface

    [workqueue.RateLimitingInterface] is an interface of an external library;
    the package only calls its methods.  It is a type class here: [Q] is the
    state of an implementation and each method is a function on that state.
    The items held are [interface{}] values: the keys the package enqueues,
    or anything else a caller put in the exported [WorkQueue] field. *)

Inductive Item :=
  | KeyItem (key : NamespacedName)
  | RawItem (repr : string).

#[global] Instance Item_eq_dec : EqDecision Item.
Proof. solve_decision. Defined.

#[global] Instance Item_countable : Countable Item.
Proof.
  refine (inj_countable'
            (fun i => match i with KeyItem k => inl k | RawItem s => inr s end)
            (fun s => match s with inl k => KeyItem k | inr s => RawItem s end)
            _).
  intros []; reflexivity.
Defined.

Module workqueue.

(** What [Get] does: hand out an item, report that the queue has shut down,
    or block because the queue is empty and still open. *)
Inductive GetResult (Q : Type) :=
  | GetItem (item : Item) (q : Q)
  | GetShutdown (q : Q)
  | GetBlocks.
Arguments GetItem {Q} item q.
Arguments GetShutdown {Q} q.
Arguments GetBlocks {Q}.

Class RateLimitingInterface (Q : Type) := {
  Add : Item -> Q -> Q;
  Len : Q -> Z;
  Get : Q -> GetResult Q;
  Done : Item -> Q -> Q;
  ShutDown : Q -> Q;
  ShuttingDown : Q -> bool;
  AddAfter : Item -> Duration -> Q -> Q;
  AddRateLimited : Item -> Q -> Q;
  Forget : Item -> Q -> Q;
  NumRequeues : Item -> Q -> Z
}.

End workqueue.
Import workqueue.

(** ** The reconciler interface

    A reconciler is given the context and the key string and returns an
    error or nil.  What a reconciler writes through the logger it finds in
    its context is part of the external logging capability and is not
    recorded here: the log of the model holds the controller's own
    entries. *)

Class ReconcilerInterface (R : Type) := {
  Reconcile : Context -> string -> R -> R * option error
}.

(** ** Jitter

    [wait.Jitter] of the external apimachinery library:
    [[
      if maxFactor <= 0.0 { maxFactor = 1.0 }
      wait := duration + time.Duration(rand.Float64()*maxFactor*float64(duration))
    ]]
    The pseudo-random source is a stream of samples, each in the half-open
    interval from 0 to 1; drawing one consumes it.  The floating-point product is idealised as the
    exact product of rationals, and the conversion to [time.Duration]
    truncates toward zero as Go's conversion does. *)

Module wait.

Record Rand := mkRand {
  samples : nat -> Q;   (* the stream of values [rand.Float64] returns *)
  pos : nat             (* how many have been drawn *)
}.

Definition Float64 (rng : Rand) : Q * Rand :=
  (samples rng (pos rng), mkRand (samples rng) (S (pos rng))).

Definition skip (n : nat) (rng : Rand) : Rand :=
  mkRand (samples rng) (pos rng + n).

Definition truncate (q : Q) : Z := Z.quot (Qnum q) (Zpos (Qden q)).

Definition Duration_of_float (q : Q) : Duration := wrap64 (truncate q).

(** The value of [Jitter] once the sample [r] is drawn. *)
Definition jittered (duration : Duration) (maxFactor : Q) (r : Q)
  : Duration :=
  let maxFactor := if Qle_bool maxFactor 0 then 1%Q else maxFactor in
  dur_add duration (Duration_of_float (r * maxFactor * inject_Z duration)%Q).

Definition Jitter (duration : Duration) (maxFactor : Q) (rng : Rand)
  : Duration * Rand :=
  let (r, rng) := Float64 rng in
  (jittered duration maxFactor r, rng).

End wait.

(** A [cache.SharedInformer], as far as the package uses it: the objects its
    store lists. *)
Record SharedInformer := mkSharedInformer {
  GetStore_List : list any
}.

(** ** The controller *)

Record Impl (R W : Type) := mkImpl {
  Reconciler : R;
  WorkQueue : W;
  logger : Logger
}.
Arguments mkImpl {R W} _ _ _.
Arguments Reconciler {R W} _.
Arguments WorkQueue {R W} _.
Arguments logger {R W} _.

Section Controller.

Context {R W : Type} `{!ReconcilerInterface R} `{!RateLimitingInterface W}.

Local Abbreviation Impl := (Impl R W).

Definition setQueue (q : W) (c : Impl) : Impl :=
  mkImpl (Reconciler c) q (logger c).

Definition setLogger (l : Logger) (c : Impl) : Impl :=
  mkImpl (Reconciler c) (WorkQueue c) l.

Definition setReconciler (r : R) (c : Impl) : Impl :=
  mkImpl r (WorkQueue c) (logger c).

Definition logf (lvl : Level) (tmpl : string) (xs : list LogArg) (c : Impl)
  : Impl :=
  setLogger (log lvl tmpl xs (logger c)) c.

Definition EnqueueKey (key : NamespacedName) (c : Impl) : Impl :=
  let c := setQueue (Add (KeyItem key) (WorkQueue c)) c in
  logf DebugLevel "Adding to queue %s (depth: %d)"
       [LStr (safeKey key); LInt (Len (WorkQueue c))] c.

Definition EnqueueKeyAfter (key : NamespacedName) (delay : Duration)
  (c : Impl) : Impl :=
  let c := setQueue (AddAfter (KeyItem key) delay (WorkQueue c)) c in
  logf DebugLevel "Adding to queue %s (delay: %v, depth: %d)"
       [LStr (safeKey key); LDur delay; LInt (Len (WorkQueue c))] c.

Definition EnqueueAfter (obj : any) (after : Duration) (c : Impl) : Impl :=
  match DeletionHandlingAccessor obj with
  | inr err => logf ErrorLevel "Enqueue" [LErr err] c
  | inl object =>
      EnqueueKeyAfter
        (mkNamespacedName (metav1.GetNamespace object) (metav1.GetName object))
        after c
  end.

Definition Enqueue (obj : any) (c : Impl) : Impl :=
  match DeletionHandlingAccessor obj with
  | inr err => logf ErrorLevel "Enqueue" [LErr err] c
  | inl object =>
      EnqueueKey
        (mkNamespacedName (metav1.GetNamespace object) (metav1.GetName object))
        c
  end.

Definition EnqueueSentinel (k : NamespacedName) : any -> Impl -> Impl :=
  fun _ c => EnqueueKey k c.

Definition EnqueueControllerOf (obj : any) (c : Impl) : Impl :=
  match DeletionHandlingAccessor obj with
  | inr err => logf ErrorLevel "" [LErr err] c
  | inl object =>
      match metav1.GetControllerOf object with
      | Some owner =>
          EnqueueKey
            (mkNamespacedName (metav1.GetNamespace object) (metav1.Name owner))
            c
      | None => c
      end
  end.

Definition EnqueueLabelOfNamespaceScopedResource
  (namespaceLabel nameLabel : string) : any -> Impl -> Impl :=
  fun obj c =>
    match DeletionHandlingAccessor obj with
    | inr err => logf ErrorLevel "" [LErr err] c
    | inl object =>
        let labels := metav1.GetLabels object in
        match labels !! nameLabel with
        | None =>
            logf DebugLevel
                 "Object %s/%s does not have a referring name label %s"
                 [LStr (metav1.GetNamespace object);
                  LStr (metav1.GetName object); LStr nameLabel] c
        | Some controllerKey =>
            if decide (namespaceLabel <> "") then
              match labels !! namespaceLabel with
              | None =>
                  logf DebugLevel
                       "Object %s/%s does not have a referring namespace label %s"
                       [LStr (metav1.GetNamespace object);
                        LStr (metav1.GetName object); LStr namespaceLabel] c
              | Some controllerNamespace =>
                  EnqueueKey
                    (mkNamespacedName controllerNamespace controllerKey) c
              end
            else
              EnqueueKey
                (mkNamespacedName (metav1.GetNamespace object) controllerKey)
                c
        end
    end.

Definition EnqueueLabelOfClusterScopedResource (nameLabel : string)
  : any -> Impl -> Impl :=
  fun obj c =>
    match DeletionHandlingAccessor obj with
    | inr err => logf ErrorLevel "" [LErr err] c
    | inl object =>
        let labels := metav1.GetLabels object in
        match labels !! nameLabel with
        | None =>
            logf DebugLevel
                 "Object %s/%s does not have a referring name label %s"
                 [LStr (metav1.GetNamespace object);
                  LStr (metav1.GetName object); LStr nameLabel] c
        | Some controllerKey =>
            EnqueueKey (mkNamespacedName "" controllerKey) c
        end
    end.

Inductive Outcome :=
  | Return (b : bool)
  | Panic (msg : string)
  | Blocks.

Definition handleErr (err : error) (key : NamespacedName) (c : Impl) : Impl :=
  let c := logf ErrorLevel "Reconcile error" [LErr err] c in
  if negb (IsPermanentError (Some err)) && negb (ShuttingDown (WorkQueue c))
  then
    let c := setQueue (AddRateLimited (KeyItem key) (WorkQueue c)) c in
    logf DebugLevel "Requeuing key %s due to non-permanent error (depth: %d)"
         [LStr (safeKey key); LInt (Len (WorkQueue c))] c
  else
    setQueue (Forget (KeyItem key) (WorkQueue c)) c.

(** Write through the logger derived with [With]: same sink, more fields. *)
Definition logWith (kvs : list (string * string)) (lvl : Level)
  (tmpl : string) (xs : list LogArg) (c : Impl) : Impl :=
  let l := log lvl tmpl xs (Logger_With kvs (logger c)) in
  setLogger {| attached := attached (logger c); sink := sink l |} c.

(** [processNextWorkItem].  [traceId] is the identifier [uuid.New] draws and
    [elapsed] the wall-clock time the call to [Reconcile] takes; both come
    from outside.  The deferred [Done] runs on both normal return paths; the
    type assertion on the item happens before the [defer] statement, so a
    panic there leaves the item checked out. *)
Definition processNextWorkItem (traceId : string) (elapsed : Duration)
  (c : Impl) : Outcome * Impl :=
  match Get (WorkQueue c) with
  | GetBlocks => (Blocks, c)
  | GetShutdown q => (Return false, setQueue q c)
  | GetItem obj q =>
      let c := setQueue q c in
      match obj with
      | RawItem _ =>
          (Panic "interface conversion: interface {} is not types.NamespacedName",
           c)
      | KeyItem key =>
          let keyStr := safeKey key in
          let c := logf DebugLevel "Processing from queue %s (depth: %d)"
                        [LStr (safeKey key); LInt (Len (WorkQueue c))] c in
          let kvs := [(logging.TraceId, traceId); (logging.Key, keyStr)] in
          let ctx := WithLogger TODO (Logger_With kvs (logger c)) in
          let (r, err) := Reconcile ctx keyStr (Reconciler c) in
          let c := setReconciler r c in
          match err with
          | Some err =>
              let c := handleErr err key c in
              let c := logWith kvs InfoLevel
                               "Reconcile failed. Time taken: %v."
                               [LDur elapsed] c in
              (Return true, setQueue (Done (KeyItem key) (WorkQueue c)) c)
          | None =>
              let c := setQueue (Forget (KeyItem key) (WorkQueue c)) c in
              let c := logWith kvs InfoLevel
                               "Reconcile succeeded. Time taken: %v."
                               [LDur elapsed] c in
              (Return true, setQueue (Done (KeyItem key) (WorkQueue c)) c)
          end
      end
  end.

(** The loop of [FilteredGlobalResync] over the listed objects. *)
Fixpoint resyncRange (f : any -> bool) (count : Q) (lst : list any)
  (rng : wait.Rand) (c : Impl) : Impl * wait.Rand :=
  match lst with
  | [] => (c, rng)
  | obj :: rest =>
      if f obj then
        let (after, rng) := wait.Jitter Second count rng in
        resyncRange f count rest rng (EnqueueAfter obj after c)
      else resyncRange f count rest rng c
  end.

Definition FilteredGlobalResync (f : any -> bool) (si : SharedInformer)
  (rng : wait.Rand) (c : Impl) : Impl * wait.Rand :=
  if ShuttingDown (WorkQueue c) then (c, rng)
  else
    let lst := GetStore_List si in
    let count := inject_Z (Z.of_nat (length lst)) in
    resyncRange f count lst rng c.

Definition GlobalResync (si : SharedInformer) (rng : wait.Rand) (c : Impl)
  : Impl * wait.Rand :=
  let alwaysTrue := fun _ : any => true in
  FilteredGlobalResync alwaysTrue si rng c.

End Controller.

(** The arguments of the calls to [EnqueueAfter] that a resync over the
    store of [si] makes: the listed objects that pass [f], in order, the
    [i]-th of them with the delay computed from the [i]-th sample drawn. *)
Definition resyncDelays (count : Q) (n : nat) (rng : wait.Rand)
  : list Duration :=
  map (fun i => wait.jittered Second count
                  (wait.samples rng (wait.pos rng + i)))
      (seq 0 n).

Definition resyncCalls (f : any -> bool) (si : SharedInformer)
  (rng : wait.Rand) : list (any * Duration) :=
  let lst := GetStore_List si in
  let passing := filter (fun obj => f obj = true) lst in
  zip passing
      (resyncDelays (inject_Z (Z.of_nat (length lst))) (length passing) rng).

(** ** A recording queue

    A queue that wraps any implementation of the interface, delegates every
    method to it and records each state-changing call, in order.  It plays
    the part a spy plays in a test: the calls the package makes on its
    [WorkQueue] can be read off afterwards. *)

Inductive Call :=
  | CAdd (item : Item)
  | CGet
  | CDone (item : Item)
  | CShutDown
  | CAddAfter (item : Item) (d : Duration)
  | CAddRateLimited (item : Item)
  | CForget (item : Item).

#[global] Instance Call_eq_dec : EqDecision Call.
Proof. unfold Duration. solve_decision. Defined.

Record Traced (W : Type) := mkTraced {
  inner : W;
  calls : list Call
}.
Arguments mkTraced {W} _ _.
Arguments inner {W} _.
Arguments calls {W} _.

Definition record {W : Type} (call : Call) (f : W -> W) (t : Traced W)
  : Traced W :=
  mkTraced (f (inner t)) (calls t ++ [call]).

#[global] Instance Traced_queue {W : Type} `{!RateLimitingInterface W}
  : RateLimitingInterface (Traced W) := {
  Add item := record (CAdd item) (Add item);
  Len t := Len (inner t);
  Get t :=
    match Get (inner t) with
    | GetItem item q => GetItem item (mkTraced q (calls t ++ [CGet]))
    | GetShutdown q => GetShutdown (mkTraced q (calls t ++ [CGet]))
    | GetBlocks => GetBlocks
    end;
  Done item := record (CDone item) (Done item);
  ShutDown := record CShutDown ShutDown;
  ShuttingDown t := ShuttingDown (inner t);
  AddAfter item d := record (CAddAfter item d) (AddAfter item d);
  AddRateLimited item := record (CAddRateLimited item) (AddRateLimited item);
  Forget item := record (CForget item) (Forget item);
  NumRequeues item t := NumRequeues item (inner t)
}.

(** Whether the failure path retries: the condition of [handleErr]. *)
Definition retried {W : Type} `{!RateLimitingInterface W} (err : error)
  (q : W) : bool :=
  negb (IsPermanentError (Some err)) && negb (ShuttingDown q).

(** A call that puts an item (back) into the queue. *)
Definition isRequeue (item : Item) (call : Call) : bool :=
  match call with
  | CAdd i | CAddAfter i _ | CAddRateLimited i => bool_decide (i = item)
  | _ => false
  end.

(** The call on the queue that [EnqueueAfter obj after] makes for the pair
    [(obj, after)]: a delayed addition under the object's key when the object
    resolves, none when it does not. *)
Definition delayedAddition (p : any * Duration) : option Call :=
  match DeletionHandlingAccessor (fst p) with
  | inl object =>
      Some (CAddAfter
              (KeyItem (mkNamespacedName (metav1.GetNamespace object)
                                         (metav1.GetName object)))
              (snd p))
  | inr _ => None
  end.

(** ** The rate-limited work queue

    Modelled from the spec: the queue behind [WorkQueue] is built by
    [workqueue.NewNamedRateLimitingQueue] of the external client library,
    whose code is not part of the sources at hand.  The definitions below
    follow the specification's description of the queue (its section 4.1):
    the three structures [queue], [dirty] and [processing], delayed entries
    that turn into an [Add] at their fire time, and a failure count per item
    from which the back-off delay is computed.  The back-off formula is
    configuration ([backoff]). *)

Module WorkQ.

Record t := mk {
  queue : list Item;
  dirty : gset Item;
  processing : gset Item;
  waiting : gmap Item Z;        (* delayed entries: item, fire time *)
  failures : gmap Item nat;     (* rate-limiter history *)
  now : Z;                      (* the clock *)
  shuttingDown : bool;
  backoff : nat -> Duration     (* delay after that many failures *)
}.

Definition New (backoff : nat -> Duration) : t :=
  mk [] ∅ ∅ ∅ ∅ 0 false backoff.

Definition Add (item : Item) (q : t) : t :=
  if decide (item ∈ dirty q) then q
  else if decide (item ∈ processing q) then
    mk (queue q) ({[item]} ∪ dirty q) (processing q) (waiting q)
       (failures q) (now q) (shuttingDown q) (backoff q)
  else
    mk (queue q ++ [item]) ({[item]} ∪ dirty q) (processing q) (waiting q)
       (failures q) (now q) (shuttingDown q) (backoff q).

Definition Len (q : t) : Z := Z.of_nat (length (queue q)).

Definition Get (q : t) : GetResult t :=
  match queue q with
  | item :: rest =>
      GetItem item
        (mk rest (dirty q ∖ {[item]}) ({[item]} ∪ processing q) (waiting q)
            (failures q) (now q) (shuttingDown q) (backoff q))
  | [] => if shuttingDown q then GetShutdown q else GetBlocks
  end.

Definition Done (item : Item) (q : t) : t :=
  let processing' := processing q ∖ {[item]} in
  if decide (item ∈ dirty q) then
    mk (queue q ++ [item]) (dirty q) processing' (waiting q)
       (failures q) (now q) (shuttingDown q) (backoff q)
  else
    mk (queue q) (dirty q) processing' (waiting q)
       (failures q) (now q) (shuttingDown q) (backoff q).

Definition ShutDown (q : t) : t :=
  mk (queue q) (dirty q) (processing q) (waiting q)
     (failures q) (now q) true (backoff q).

Definition ShuttingDown (q : t) : bool := shuttingDown q.

(** A later schedule for an item that is already waiting does not replace
    an earlier one. *)
Definition schedule (item : Item) (at_ : Z) (q : t) : gmap Item Z :=
  match waiting q !! item with
  | Some t0 => if decide (t0 <= at_) then waiting q
               else <[item := at_]> (waiting q)
  | None => <[item := at_]> (waiting q)
  end.

Definition AddAfter (item : Item) (delay : Duration) (q : t) : t :=
  if shuttingDown q then q
  else if decide (delay <= 0) then Add item q
  else
    mk (queue q) (dirty q) (processing q) (schedule item (now q + delay) q)
       (failures q) (now q) (shuttingDown q) (backoff q).

Definition NumRequeues (item : Item) (q : t) : Z :=
  Z.of_nat (default 0%nat (failures q !! item)).

Definition AddRateLimited (item : Item) (q : t) : t :=
  let n := default 0%nat (failures q !! item) in
  let q' := mk (queue q) (dirty q) (processing q) (waiting q)
               (<[item := S n]> (failures q)) (now q) (shuttingDown q)
               (backoff q) in
  AddAfter item (backoff q n) q'.

Definition Forget (item : Item) (q : t) : t :=
  mk (queue q) (dirty q) (processing q) (waiting q)
     (delete item (failures q)) (now q) (shuttingDown q) (backoff q).

(** The passage of time, and a timer firing: a delayed entry whose fire
    time has come becomes an ordinary [Add]. *)
Definition advance (d : Z) (q : t) : t :=
  mk (queue q) (dirty q) (processing q) (waiting q)
     (failures q) (now q + Z.max 0 d) (shuttingDown q) (backoff q).

Definition fire (item : Item) (q : t) : t :=
  match waiting q !! item with
  | Some at_ =>
      if decide (at_ <= now q) then
        Add item
          (mk (queue q) (dirty q) (processing q) (delete item (waiting q))
              (failures q) (now q) (shuttingDown q) (backoff q))
      else q
  | None => q
  end.

End WorkQ.

#[global] Instance WorkQ_queue : RateLimitingInterface WorkQ.t := {
  Add := WorkQ.Add;
  Len := WorkQ.Len;
  Get := WorkQ.Get;
  Done := WorkQ.Done;
  ShutDown := WorkQ.ShutDown;
  ShuttingDown := WorkQ.ShuttingDown;
  AddAfter := WorkQ.AddAfter;
  AddRateLimited := WorkQ.AddRateLimited;
  Forget := WorkQ.Forget;
  NumRequeues := WorkQ.NumRequeues
}.

(** ** Starting informers

    Instants are counted in poll periods.  An informer that was started is
    described by what its [HasSynced] reports at each instant; the stop
    channel by the instant at which it is closed, if ever.

    [cache.WaitForCacheSync] belongs to the external client library
    ([wait.PollImmediateUntil]): it evaluates the condition at once and
    returns [true] if it holds; failing that it returns [false] if the stop
    channel is closed already.  After that it polls once per period: at a
    poll it looks at the stop channel first and returns [false], without
    evaluating the condition again, when the channel is closed; only with
    the channel still open does it evaluate the condition.  It may never
    return; [fuel] bounds the number of polls after the first check. *)

Record Informer := mkInformer {
  HasSynced : nat -> bool
}.

Definition StopCh := option nat.

Definition closed (stopCh : StopCh) (now : nat) : bool :=
  match stopCh with
  | Some at_ => bool_decide (at_ <= now)%nat
  | None => false
  end.

Module cache.

(** The polls that follow the first check ([wait.PollUntil]). *)
Fixpoint poll (fuel : nat) (stopCh : StopCh) (cacheSync : nat -> bool)
  (now : nat) : option (bool * nat) :=
  match fuel with
  | O => None
  | S fuel =>
      if closed stopCh now then Some (false, now)
      else if cacheSync now then Some (true, now)
      else poll fuel stopCh cacheSync (S now)
  end.

Definition WaitForCacheSync (fuel : nat) (stopCh : StopCh)
  (cacheSync : nat -> bool) (now : nat) : option (bool * nat) :=
  if cacheSync now then Some (true, now)
  else if closed stopCh now then Some (false, now)
  else poll fuel stopCh cacheSync (S now).

End cache.

(** An informer whose cache, once synced, stays synced. *)
Definition staysSynced (informer : Informer) : Prop :=
  forall t t' : nat, (t <= t')%nat ->
    HasSynced informer t = true -> HasSynced informer t' = true.

Definition syncError (i : nat) : error :=
  errorString ("failed to wait for cache at index " +:+ pretty i +:+ " to sync").

(** The second loop of [StartInformers], from index [i] on.  The result is
    the error returned ([None] is nil) and the instant of the return. *)
Fixpoint waitForSync (fuel : nat) (stopCh : StopCh) (informers : list Informer)
  (i : nat) (now : nat) : option (option error * nat) :=
  match informers with
  | [] => Some (None, now)
  | informer :: rest =>
      match cache.WaitForCacheSync fuel stopCh (HasSynced informer) now with
      | None => None
      | Some (true, now) => waitForSync fuel stopCh rest (S i) now
      | Some (false, now) => Some (Some (syncError i), now)
      end
  end.

(** [StartInformers]: the first loop starts every informer in a goroutine of
    its own, which is what makes the [HasSynced] of each evolve; the second
    loop waits for them in order. *)
Definition StartInformers (fuel : nat) (stopCh : StopCh)
  (informers : list Informer) : option (option error * nat) :=
  waitForSync fuel stopCh informers 0 0.

(** ** The worker pool

    [Run] starts [threadiness] goroutines that each loop on
    [processNextWorkItem], while producers call the enqueue functions from
    goroutines of their own.  Every method of the queue runs under the
    queue's lock, so an execution is an interleaving of queue calls.  A
    worker is described by the place in [processNextWorkItem] it has
    reached. *)

Module Pool.

Inductive pc :=
  | AtGet                                        (* about to call [Get] *)
  | InReconcile (key : NamespacedName)           (* [Reconcile] is running *)
  | AtHandleErr (key : NamespacedName) (err : error)
  | AtAddRateLimited (key : NamespacedName)
  | AtForget (key : NamespacedName)
  | AtDone (key : NamespacedName)                (* the deferred [Done] *)
  | Exited                                       (* the loop has ended *)
  | Crashed (item : Item).                       (* the type assertion failed *)

#[global] Instance pc_eq_dec : EqDecision pc.
Proof. solve_decision. Defined.

(** The item a worker has checked out and not yet given back. *)
Definition holds (p : pc) : option Item :=
  match p with
  | InReconcile k | AtHandleErr k _ | AtAddRateLimited k | AtForget k
  | AtDone k => Some (KeyItem k)
  | Crashed item => Some item
  | AtGet | Exited => None
  end.

(** One queue call (or the return of [Reconcile], with [result]) of a
    worker; [None] when the worker cannot move: blocked in [Get], or gone. *)
Definition workerStep (result : option error) (p : pc) (q : WorkQ.t)
  : option (pc * WorkQ.t) :=
  match p with
  | AtGet =>
      match Get q with
      | GetItem (KeyItem key) q' => Some (InReconcile key, q')
      | GetItem (RawItem s) q' => Some (Crashed (RawItem s), q')
      | GetShutdown q' => Some (Exited, q')
      | GetBlocks => None
      end
  | InReconcile key =>
      match result with
      | Some err => Some (AtHandleErr key err, q)
      | None => Some (AtForget key, q)
      end
  | AtHandleErr key err =>
      if negb (IsPermanentError (Some err)) && negb (ShuttingDown q)
      then Some (AtAddRateLimited key, q)
      else Some (AtForget key, q)
  | AtAddRateLimited key => Some (AtDone key, AddRateLimited (KeyItem key) q)
  | AtForget key => Some (AtDone key, Forget (KeyItem key) q)
  | AtDone key => Some (AtGet, Done (KeyItem key) q)
  | Exited | Crashed _ => None
  end.

Record System := mkSystem {
  wq : WorkQ.t;
  workers : list pc
}.

(** What can happen next: a worker moves, a producer enqueues (at once or
    after a delay), the stop signal makes [Run] shut the queue down, time
    passes, a timer fires. *)
Inductive Event :=
  | Worker (i : nat) (result : option error)
  | ProducerAdd (item : Item)
  | ProducerAddAfter (item : Item) (delay : Duration)
  | Stop
  | Tick (d : Z)
  | Fire (item : Item).

Definition exec (ev : Event) (s : System) : option System :=
  match ev with
  | Worker i result =>
      match workers s !! i with
      | Some p =>
          match workerStep result p (wq s) with
          | Some (p', q') => Some (mkSystem q' (<[i := p']> (workers s)))
          | None => None
          end
      | None => None
      end
  | ProducerAdd item => Some (mkSystem (Add item (wq s)) (workers s))
  | ProducerAddAfter item delay =>
      Some (mkSystem (AddAfter item delay (wq s)) (workers s))
  | Stop => Some (mkSystem (ShutDown (wq s)) (workers s))
  | Tick d => Some (mkSystem (WorkQ.advance d (wq s)) (workers s))
  | Fire item => Some (mkSystem (WorkQ.fire item (wq s)) (workers s))
  end.

Fixpoint run (evs : list Event) (s : System) : option System :=
  match evs with
  | [] => Some s
  | ev :: evs =>
      match exec ev s with
      | Some s' => run evs s'
      | None => None
      end
  end.

(** [Run threadiness]: the workers are started on a fresh queue. *)
Definition Run (threadiness : nat) (backoff : nat -> Duration) : System :=
  mkSystem (WorkQ.New backoff) (replicate threadiness AtGet).

Definition reachable (threadiness : nat) (backoff : nat -> Duration)
  (s : System) : Prop :=
  exists evs, run evs (Run threadiness backoff) = Some s.

(** Number of workers that hold [item], and number whose call to
    [Reconcile] for [key] is running. *)
Definition holders (item : Item) (s : System) : nat :=
  length (filter (fun p => holds p = Some item) (workers s)).

Definition reconciling (key : NamespacedName) (s : System) : nat :=
  length (filter (fun p => p = InReconcile key) (workers s)).

Definition queued (item : Item) (s : System) : nat :=
  length (filter (fun x => x = item) (WorkQ.queue (wq s))).

(** The invariant of the queue's data: [queue] has no duplicates and holds
    exactly the items that are dirty and not being processed. *)
Definition queueInv (q : WorkQ.t) : Prop :=
  NoDup (WorkQ.queue q) /\
  forall x, x ∈ WorkQ.queue q <->
            x ∈ WorkQ.dirty q /\ x ∉ WorkQ.processing q.

(** The invariant of the pool: what a worker holds is marked as being
    processed, and no two workers hold the same item. *)
Definition Inv (s : System) : Prop :=
  queueInv (wq s) /\
  (forall i p x, workers s !! i = Some p -> holds p = Some x ->
                 x ∈ WorkQ.processing (wq s)) /\
  (forall i j p p' x,
      workers s !! i = Some p -> workers s !! j = Some p' ->
      holds p = Some x -> holds p' = Some x -> i = j).

(** A schedule for the sample data: the same key is added over and over
    while two workers run. *)
Definition busy : list Event :=
  let k := KeyItem (mkNamespacedName "prod" "web") in
  [ProducerAdd k; ProducerAdd k; Worker 0 None; ProducerAdd k;
   Worker 0 (Some (errorString "conflict")); Worker 0 None; Worker 0 None;
   Worker 0 None; Worker 1 None; Tick 10000000; Fire k; Worker 1 None;
   ProducerAdd k; Worker 1 None; Worker 1 None; Worker 0 None; Stop].

End Pool.

(** ** A recording reconciler

    A [Reconciler] that answers from a fixed table and keeps the key strings
    it was called with, in order. *)

Record Spy := mkSpy {
  answers : string -> option error;
  seen : list string
}.

#[global] Instance Spy_reconciler : ReconcilerInterface Spy := {
  Reconcile _ key r := (mkSpy (answers r) (seen r ++ [key]), answers r key)
}.

(** ** Sample data

    A pod controlled by a replica set, a configuration map without owner,
    and a controller on a recording queue and a recording reconciler.  The
    back-off is the exponential one of the client library's default limiter:
    five milliseconds doubled per failure, at most a thousand seconds. *)

Module Sample.

Definition backoff (failures : nat) : Duration :=
  nth failures
      [5000000; 10000000; 20000000; 40000000; 80000000; 160000000;
       320000000; 640000000; 1280000000; 2560000000; 5120000000;
       10240000000; 20480000000; 40960000000; 81920000000; 163840000000;
       327680000000; 655360000000]
      1000000000000.

Definition pod : metav1.Object :=
  metav1.mkObject "prod" "web-7f9c-abcde"
    {[ "app" := "web"; "parent" := "web-route"; "parent-ns" := "routing" ]}
    [ metav1.mkOwnerReference "v1" "Node" "node-1" None;
      metav1.mkOwnerReference "apps/v1" "ReplicaSet" "web-7f9c" (Some true);
      metav1.mkOwnerReference "apps/v1" "Deployment" "web" (Some false) ].

Definition configMap : metav1.Object :=
  metav1.mkObject "prod" "settings" ∅
    [ metav1.mkOwnerReference "v1" "Namespace" "prod" (Some false) ].

Definition failing (key : string) : option error :=
  if decide (key = "prod/web") then Some (errorString "conflict")
  else if decide (key = "prod/bad")
       then Some (NewPermanentError (Some (errorString "invalid spec")))
       else None.

Definition controller : Impl Spy (Traced WorkQ.t) :=
  mkImpl (mkSpy failing []) (mkTraced (WorkQ.New backoff) [])
         (mkLogger [] []).

Definition store : SharedInformer :=
  mkSharedInformer [AnObject pod].

(** Ten objects [obj-0] ... [obj-9] in one store. *)
Definition numbered (i : nat) : any :=
  AnObject (metav1.mkObject "prod" ("obj-" +:+ pretty i) ∅ []).

Definition ten : SharedInformer :=
  mkSharedInformer (map numbered (seq 0 10)).

(** A random source that keeps returning [0]. *)
Definition zeros : wait.Rand := wait.mkRand (fun _ => 0%Q) 0.

(** A random source that cycles through 0, 1/4, 1/2, 3/4. *)
Definition quarters : wait.Rand :=
  wait.mkRand (fun i => (Z.of_nat (i mod 4) # 4)%Q) 0.

(** An informer that syncs at a given instant, and one that never does. *)
Definition syncsAt (t0 : nat) : Informer :=
  mkInformer (fun t => bool_decide (t0 <= t)%nat).

Definition neverSyncs : Informer := mkInformer (fun _ => false).

End Sample.

(** ** Owner-kind filters and event handlers *)

Module schema.

Record GroupVersionKind := mkGroupVersionKind {
  Group : string;
  Version : string;
  Kind : string
}.

(** [GroupVersion.String] of the external apimachinery library: the version
    alone for the core group, ["group/version"] otherwise. *)
Definition GroupVersion_String (gvk : GroupVersionKind) : string :=
  if decide (Group gvk = "") then Version gvk
  else Group gvk +:+ "/" +:+ Version gvk.

End schema.

(** [Filter]: the value must be an object (the type assertion fails for a
    tombstone) whose controlling owner has the API version and kind of
    [gvk]. *)
Definition Filter (gvk : schema.GroupVersionKind) : any -> bool :=
  fun obj =>
    match obj with
    | AnObject object =>
        match metav1.GetControllerOf object with
        | Some owner =>
            bool_decide (metav1.APIVersion owner = schema.GroupVersion_String gvk)
            && bool_decide (metav1.Kind owner = schema.Kind gvk)
        | None => false
        end
    | _ => false
    end.

(** [cache.ResourceEventHandlerFuncs]: the three callbacks of an event
    handler, each a change of the state [S] the callbacks act on. *)
Record ResourceEventHandlerFuncs (S : Type) := mkResourceEventHandlerFuncs {
  AddFunc : any -> S -> S;
  UpdateFunc : any -> any -> S -> S;
  DeleteFunc : any -> S -> S
}.
Arguments mkResourceEventHandlerFuncs {S} _ _ _.
Arguments AddFunc {S} _.
Arguments UpdateFunc {S} _.
Arguments DeleteFunc {S} _.

Definition PassNew {S : Type} (f : any -> S -> S) : any -> any -> S -> S :=
  fun first second => f second.

Definition HandleAll {S : Type} (h : any -> S -> S)
  : ResourceEventHandlerFuncs S :=
  {| AddFunc := h; UpdateFunc := PassNew h; DeleteFunc := h |}.

(** An event of a watched type, and its delivery to a handler. *)
Inductive WatchEvent :=
  | Added (obj : any)
  | Updated (oldObj newObj : any)
  | Deleted (obj : any).

Definition deliver {S : Type} (h : ResourceEventHandlerFuncs S)
  (ev : WatchEvent) : S -> S :=
  match ev with
  | Added obj => AddFunc h obj
  | Updated oldObj newObj => UpdateFunc h oldObj newObj
  | Deleted obj => DeleteFunc h obj
  end.

(** The object an event is about, as the handlers of [HandleAll] see it. *)
Definition subject (ev : WatchEvent) : any :=
  match ev with
  | Added obj | Deleted obj => obj
  | Updated _ newObj => newObj
  end.

(** What an enqueue function does with a value the accessor rejects: the
    queue and the reconciler stay as they are and one entry is logged at
    error level, with the accessor's error. *)
Definition rejects {R W : Type} (f : Impl R W -> Impl R W) (err : error)
  : Prop :=
  forall c,
    WorkQueue (f c) = WorkQueue c /\
    Reconciler (f c) = Reconciler c /\
    exists tmpl,
      sink (logger (f c))
        = (sink (logger c)
             ++ [mkLogEntry ErrorLevel tmpl [LErr err]
                            (attached (logger c))])%list.

(** ** Strings without a separator *)

Definition slash : Ascii.ascii := Ascii.ascii_of_nat 47.

Fixpoint noSlash (s : string) : bool :=
  match s with
  | EmptyString => true
  | String ch rest => negb (bool_decide (ch = slash)) && noSlash rest
  end.

(** ** The worker loop

    The goroutine [Run] starts for each worker:
    [for c.processNextWorkItem() {}].  [ids] are the trace identifiers and
    elapsed times of the successive calls; the loop is cut off when they run
    out.  The result tells how the loop ended and how many items it
    processed. *)

Inductive LoopEnd :=
  | LoopExited            (* [processNextWorkItem] returned false *)
  | LoopPanicked (msg : string)
  | LoopBlocked           (* waiting in [Get] *)
  | LoopCutOff.

Fixpoint workerLoop {R W : Type} `{!ReconcilerInterface R}
  `{!RateLimitingInterface W} (ids : list (string * Duration))
  (c : Impl R W) : LoopEnd * nat * Impl R W :=
  match ids with
  | [] => (LoopCutOff, 0%nat, c)
  | (traceId, elapsed) :: ids =>
      match processNextWorkItem traceId elapsed c with
      | (Return true, c) =>
          let '(e, n, c) := workerLoop ids c in (e, S n, c)
      | (Return false, c) => (LoopExited, 0%nat, c)
      | (Panic msg, c) => (LoopPanicked msg, 0%nat, c)
      | (Blocks, c) => (LoopBlocked, 0%nat, c)
      end
  end.

(** The number of [Done] calls among recorded calls. *)
Fixpoint doneCalls (cs : list Call) : nat :=
  match cs with
  | [] => 0%nat
  | CDone _ :: cs => S (doneCalls cs)
  | _ :: cs => doneCalls cs
  end.

(** ** The scheduler extender's bind handler

    [bind.go] of the [scheduler] package.  The listers are caches that
    answer a lookup by namespace and name with an object or an error; the
    two clientsets are an external capability, the type class
    [Clientset].  [getPodLocalVolumePVCNames] is a method defined in a file
    that is not part of the sources at hand and is taken as a parameter. *)

Module scheduler.

Definition NamespaceDefault : string := "default".

Record Pod := mkPod {
  PodMeta : string * string;           (* namespace, name *)
  PodVolumes : list (string * string)  (* volume name, claim name *)
}.

(** A [LocalVolume]: its name, the [PreAllocated] map of its status (a nil
    map is [None]) and the rest of the object, which [bind] copies along. *)
Record LocalVolume := mkLocalVolume {
  LVName : string;
  PreAllocated : option (gmap string string);
  LVRest : list (string * string)
}.

Record ExtenderBindingArgs := mkExtenderBindingArgs {
  PodName : string;
  PodNamespace : string;
  PodUID : string;
  Node : string
}.

Record ExtenderBindingResult := mkExtenderBindingResult {
  ResultError : string
}.

Record Binding := mkBinding {
  BindingNamespace : string;
  BindingName : string;
  BindingUID : string;
  TargetKind : string;
  TargetName : string
}.

Class Clientset (S : Type) := {
  (** [LocalVolumes(namespace).UpdateStatus(lv)] *)
  UpdateStatus : string -> LocalVolume -> S -> S * option error;
  (** [Pods(namespace).Bind(binding)] *)
  Bind : string -> Binding -> S -> S * option error
}.

Record LocalVolumeScheduler (S : Type) := mkLocalVolumeScheduler {
  podLister : string -> string -> Pod + error;
  localVolumeLister : string -> string -> LocalVolume + error;
  client : S;
  slog : Logger
}.
Arguments mkLocalVolumeScheduler {S} _ _ _ _.
Arguments podLister {S} _.
Arguments localVolumeLister {S} _.
Arguments client {S} _.
Arguments slog {S} _.

Definition DeepCopy (lv : LocalVolume) : LocalVolume := lv.

Section Bind.

Context {S : Type} `{!Clientset S}.
Variable getPodLocalVolumePVCNames : Pod -> list string.

Definition setClient (cl : S) (lvs : LocalVolumeScheduler S)
  : LocalVolumeScheduler S :=
  mkLocalVolumeScheduler (podLister lvs) (localVolumeLister lvs) cl (slog lvs).

(** The loop [copylv.Status.PreAllocated[v] = ""] over the claim names. *)
Definition preallocate (pvcNames : list string) (m : gmap string string)
  : gmap string string :=
  foldl (fun m v => <[v := ""]> m) m pvcNames.

Definition bind (args : ExtenderBindingArgs) (lvs : LocalVolumeScheduler S)
  : LocalVolumeScheduler S * option error :=
  match podLister lvs (PodNamespace args) (PodName args) with
  | inr err => (lvs, Some err)
  | inl pod =>
      let pvcNames := getPodLocalVolumePVCNames pod in
      match localVolumeLister lvs NamespaceDefault (Node args) with
      | inr err => (lvs, Some err)
      | inl lv =>
          let copylv := DeepCopy lv in
          let m := match PreAllocated copylv with
                   | None => ∅
                   | Some m => m
                   end in
          let copylv := mkLocalVolume (LVName copylv)
                                      (Some (preallocate pvcNames m))
                                      (LVRest copylv) in
          let (cl, err) := UpdateStatus NamespaceDefault copylv (client lvs) in
          (setClient cl lvs, err)
      end
  end.

Definition BindHandler (args : ExtenderBindingArgs)
  (lvs : LocalVolumeScheduler S)
  : LocalVolumeScheduler S * ExtenderBindingResult :=
  let (lvs, err) := bind args lvs in
  match err with
  | Some err => (lvs, mkExtenderBindingResult (Error err))
  | None =>
      let b := mkBinding (PodNamespace args) (PodName args) (PodUID args)
                         "Node" (Node args) in
      let (cl, err) := Bind (BindingNamespace b) b (client lvs) in
      let lvs := setClient cl lvs in
      match err with
      | Some err => (lvs, mkExtenderBindingResult (Error err))
      | None =>
          (mkLocalVolumeScheduler (podLister lvs) (localVolumeLister lvs)
             (client lvs)
             (log InfoLevel
                  "local volume scheduler handle bind: pod(%s) namespace(%s) bind node(%s) success"
                  [LStr (PodName args); LStr (PodNamespace args);
                   LStr (Node args)] (slog lvs)),
           mkExtenderBindingResult "")
      end
  end.

End Bind.

(** A clientset that records the requests it receives and answers each kind
    of request with a fixed outcome. *)
Inductive Request :=
  | UpdateStatusRequest (namespace : string) (lv : LocalVolume)
  | BindRequest (namespace : string) (b : Binding).

Record FakeClientset := mkFakeClientset {
  requests : list Request;
  updateOutcome : option error;
  bindOutcome : option error
}.

#[global] Instance Fake_clientset : Clientset FakeClientset := {
  UpdateStatus ns lv cl :=
    (mkFakeClientset (requests cl ++ [UpdateStatusRequest ns lv])
                     (updateOutcome cl) (bindOutcome cl),
     updateOutcome cl);
  Bind ns b cl :=
    (mkFakeClientset (requests cl ++ [BindRequest ns b])
                     (updateOutcome cl) (bindOutcome cl),
     bindOutcome cl)
}.

End scheduler.

(** ** More sample data *)

Module Fixture.

Definition replicaSet : schema.GroupVersionKind :=
  schema.mkGroupVersionKind "apps" "v1" "ReplicaSet".

(** A queue into which a caller put something that is not a key. *)
Definition polluted : Impl Spy (Traced WorkQ.t) :=
  mkImpl (Reconciler Sample.controller)
         (Add (RawItem "42") (WorkQueue Sample.controller))
         (logger Sample.controller).

(** The same two keys on a plain queue that has been shut down. *)
Definition drainingQueue : Impl Spy WorkQ.t :=
  mkImpl (mkSpy Sample.failing [])
         (WorkQ.ShutDown
            (WorkQ.Add (KeyItem (mkNamespacedName "prod" "ok"))
               (WorkQ.Add (KeyItem (mkNamespacedName "prod" "web"))
                  (WorkQ.New Sample.backoff))))
         (mkLogger [] []).

Definition pvcNames (pod : scheduler.Pod) : list string :=
  map snd (scheduler.PodVolumes pod).

Definition pods (namespace name : string) : scheduler.Pod + error :=
  if decide (namespace = "prod" /\ name = "db-0")
  then inl (scheduler.mkPod ("prod", "db-0")
              [("data", "data-db-0"); ("wal", "wal-db-0")])
  else inr (errorString "pod not found").

Definition volumes (namespace name : string) : scheduler.LocalVolume + error :=
  if decide (namespace = "default" /\ name = "node-1")
  then inl (scheduler.mkLocalVolume "node-1"
              (Some {[ "wal-db-0" := "vg0"; "old" := "vg1" ]})
              [("capacity", "100Gi")])
  else inr (errorString "localvolume not found").

(** The local volume of [node-1] once the claims of [db-0] are
    pre-allocated. *)
Definition updatedVolume : scheduler.LocalVolume :=
  scheduler.mkLocalVolume "node-1"
    (Some {[ "wal-db-0" := ""; "old" := "vg1"; "data-db-0" := "" ]})
    [("capacity", "100Gi")].

Definition volumesAfter (namespace name : string)
  : scheduler.LocalVolume + error :=
  if decide (namespace = "default" /\ name = "node-1")
  then inl updatedVolume
  else inr (errorString "localvolume not found").

Definition extender : scheduler.LocalVolumeScheduler scheduler.FakeClientset :=
  scheduler.mkLocalVolumeScheduler pods volumes
    (scheduler.mkFakeClientset [] None None) (mkLogger [] []).

Definition extenderAfter
  : scheduler.LocalVolumeScheduler scheduler.FakeClientset :=
  scheduler.mkLocalVolumeScheduler pods volumesAfter
    (scheduler.mkFakeClientset [] None None) (mkLogger [] []).

(** A controller whose queue is empty and has been shut down. *)
Definition stopped : Impl Spy (Traced WorkQ.t) :=
  mkImpl (Reconciler Sample.controller)
         (ShutDown (WorkQueue Sample.controller))
         (logger Sample.controller).

Definition request : scheduler.ExtenderBindingArgs :=
  scheduler.mkExtenderBindingArgs "db-0" "prod" "uid-1" "node-1".

End Fixture.

(** * Properties *)

(** ** Error classification *)

Lemma IsPermanentError_nil : IsPermanentError None = false.
Proof. reflexivity. Qed.

Lemma Error_NewPermanentError (e : error) :
  Error (NewPermanentError (Some e)) = Error e.
Proof. reflexivity. Qed.

(** C2: [IsPermanentError e] is true exactly when [e] is a value made by
    [NewPermanentError], that is a [permanentError]; an error with the same
    message text that is not such a value (an [errors.New] error, or an error
    that wraps a permanent one) is classified transient, and a wrapped error
    keeps the message of the error inside while being permanent. *)
Theorem C2_IsPermanentError_structural :
  (forall e : option error,
      IsPermanentError e = true <->
      exists inner, e = Some (NewPermanentError inner)) /\
  (forall msg : string,
      IsPermanentError (Some (errorString msg)) = false /\
      IsPermanentError (Some (NewPermanentError (Some (errorString msg)))) = true /\
      Error (NewPermanentError (Some (errorString msg))) = Error (errorString msg)) /\
  (forall (msg : string) (inner : error),
      IsPermanentError (Some (wrapError msg inner)) = false).
Proof.
  split; [|split].
  - intros e; split.
    + destruct e as [[msg|msg inner|inner]|]; simpl; try discriminate.
      intros _. exists inner. reflexivity.
    + intros [inner ->]. reflexivity.
  - intros msg. repeat split.
  - reflexivity.
Qed.

(** ** Keys *)

Lemma safeKey_namespaced (key : NamespacedName) :
  Namespace key <> "" ->
  safeKey key = Namespace key +:+ "/" +:+ Name key.
Proof. intros Hns. unfold safeKey. case_decide; [contradiction|reflexivity]. Qed.

Lemma safeKey_bare (key : NamespacedName) :
  Namespace key = "" -> safeKey key = Name key.
Proof. intros Hns. unfold safeKey. case_decide; [reflexivity|contradiction]. Qed.

Lemma handleErr_Reconciler {R W : Type} `{!RateLimitingInterface W}
  (err : error) (key : NamespacedName) (c : Impl R W) :
  Reconciler (handleErr err key c) = Reconciler c.
Proof. unfold handleErr. destruct (_ && _); reflexivity. Qed.

(** C7: when [Get] hands a worker the key [key], [Reconcile] is called once,
    with the string form of [key]: ["namespace/name"] when the namespace is
    not empty and the bare name when it is. *)
Theorem C7_Reconcile_key_string {W : Type} `{!RateLimitingInterface W}
  (c : Impl Spy W) (key : NamespacedName) (q : W)
  (traceId : string) (elapsed : Duration) :
  Get (WorkQueue c) = GetItem (KeyItem key) q ->
  seen (Reconciler (processNextWorkItem traceId elapsed c).2)
    = (seen (Reconciler c) ++ [safeKey key])%list /\
  safeKey key = (if decide (Namespace key = "") then Name key
                 else Namespace key +:+ "/" +:+ Name key).
Proof.
  intros Hget. split; [|reflexivity].
  unfold processNextWorkItem. rewrite Hget. cbn.
  destruct (answers (Reconciler c) (safeKey key)); cbn; [|reflexivity].
  rewrite handleErr_Reconciler. reflexivity.
Qed.

(** ** Context-scoped configuration *)

Lemma DefaultResyncPeriod_value : DefaultResyncPeriod = 36000000000000.
Proof. reflexivity. Qed.

Lemma wrap64_id (z : Z) : inInt64 z -> wrap64 z = z.
Proof.
  unfold inInt64, wrap64, minInt64, maxInt64. intros H.
  rewrite Z.mod_small; lia.
Qed.

Lemma Value_resyncPeriodKey_None (ctx : Context) :
  (forall d, resyncPeriodKey d ∉ ctx) -> Value_resyncPeriodKey ctx = None.
Proof.
  induction ctx as [|b ctx IH]; intros Hno; [reflexivity|].
  destruct b; simpl;
    try (apply IH; intros d' Hin; apply (Hno d'); right; exact Hin).
  exfalso. apply (Hno resync). left.
Qed.

Lemma Value_resyncPeriodKey_app (outer ctx : Context) :
  (forall d, resyncPeriodKey d ∉ outer) ->
  Value_resyncPeriodKey (outer ++ ctx)%list = Value_resyncPeriodKey ctx.
Proof.
  induction outer as [|b outer IH]; intros Hno; [reflexivity|].
  destruct b; simpl;
    try (apply IH; intros d' Hin; apply (Hno d'); right; exact Hin).
  exfalso. apply (Hno resync). left.
Qed.

(** C8 (amended): [GetResyncPeriod] returns the duration of the innermost
    [WithResyncPeriod], whatever else was attached after it, and ten hours
    when the context has no resync period; [GetTrackerLease] is the
    [time.Duration] product [3 * GetResyncPeriod ctx], which is three times
    the period as an integer whenever that fits in 64 bits. *)
Theorem C8_resync_period_and_lease :
  (forall ctx d, GetResyncPeriod (WithResyncPeriod ctx d) = d) /\
  (forall (outer ctx : Context) d,
      (forall d', resyncPeriodKey d' ∉ outer) ->
      GetResyncPeriod (outer ++ WithResyncPeriod ctx d)%list = d) /\
  (forall ctx : Context,
      (forall d, resyncPeriodKey d ∉ ctx) ->
      GetResyncPeriod ctx = DefaultResyncPeriod /\
      DefaultResyncPeriod = 10 * (3600 * 1000000000)) /\
  (forall ctx, GetTrackerLease ctx = dur_mul 3 (GetResyncPeriod ctx)) /\
  (forall ctx, inInt64 (3 * GetResyncPeriod ctx) ->
               GetTrackerLease ctx = 3 * GetResyncPeriod ctx).
Proof.
  split; [reflexivity|]. split; [|split; [|split]].
  - intros outer ctx d Hno. unfold GetResyncPeriod.
    rewrite Value_resyncPeriodKey_app by exact Hno. reflexivity.
  - intros ctx Hno. unfold GetResyncPeriod.
    rewrite Value_resyncPeriodKey_None by exact Hno. split; reflexivity.
  - reflexivity.
  - intros ctx Hfit. unfold GetTrackerLease, dur_mul. apply wrap64_id, Hfit.
Qed.

Lemma C8_witness :
  GetResyncPeriod (WithEventRecorder (WithResyncPeriod Background 5000) None)
    = 5000 /\
  GetResyncPeriod (WithEventRecorder Background None) = 36000000000000 /\
  GetTrackerLease (WithEventRecorder Background None) = 108000000000000.
Proof.
  destruct C8_resync_period_and_lease as (_ & Hthrough & Hdefault & _ & Hlease).
  split; [|split].
  - apply (Hthrough [erKey None] Background 5000).
    intros d' Hin. apply list_elem_of_singleton in Hin. discriminate.
  - apply (Hdefault (WithEventRecorder Background None)).
    intros d' Hin. apply list_elem_of_singleton in Hin. discriminate.
  - apply (Hlease (WithEventRecorder Background None)).
    vm_compute. split; discriminate.
Defined.

(** C8, as stated, fails: for a resync period of 2^62 nanoseconds, which is
    a [time.Duration], the lease is not three times the period: the product
    does not fit in 64 bits and wraps around to a negative duration. *)
Lemma C8_counterexample :
  inInt64 (2 ^ 62) /\
  GetResyncPeriod (WithResyncPeriod Background (2 ^ 62)) = 2 ^ 62 /\
  GetTrackerLease (WithResyncPeriod Background (2 ^ 62)) = - 2 ^ 62 /\
  GetTrackerLease (WithResyncPeriod Background (2 ^ 62))
    <> 3 * GetResyncPeriod (WithResyncPeriod Background (2 ^ 62)).
Proof.
  split; [vm_compute; split; discriminate|].
  split; [reflexivity|]. split; [reflexivity|]. vm_compute. discriminate.
Qed.

Example GetTrackerLease_wraps :
  GetTrackerLease (WithResyncPeriod Background (2 ^ 62)) = - 2 ^ 62.
Proof. reflexivity. Qed.

(** ** Enqueueing the owner *)

Lemma GetControllerOfNoCopy_Some (refs : list metav1.OwnerReference) owner :
  metav1.GetControllerOfNoCopy refs = Some owner ->
  exists before after,
    refs = (before ++ owner :: after)%list /\
    metav1.Controller owner = Some true /\
    Forall (fun ref => metav1.Controller ref <> Some true) before.
Proof.
  induction refs as [|ref rest IH]; simpl; [discriminate|].
  destruct (metav1.isController ref) eqn:Hc.
  - intros [= <-]. exists [], rest. repeat split; [|constructor].
    unfold metav1.isController in Hc.
    destruct (metav1.Controller ref) as [[|]|]; congruence.
  - intros Hrest. destruct (IH Hrest) as (before & after & -> & Hown & Hbefore).
    exists (ref :: before), after. repeat split; [exact Hown|].
    constructor; [|exact Hbefore].
    unfold metav1.isController in Hc. intros Heq. rewrite Heq in Hc. discriminate.
Qed.

Lemma GetControllerOfNoCopy_None (refs : list metav1.OwnerReference) :
  metav1.GetControllerOfNoCopy refs = None <->
  Forall (fun ref => metav1.Controller ref <> Some true) refs.
Proof.
  induction refs as [|ref rest IH]; simpl.
  - split; [constructor|reflexivity].
  - unfold metav1.isController at 1.
    destruct (metav1.Controller ref) as [[|]|] eqn:Hc.
    + split; [discriminate|]. intros HF. inversion HF; subst. congruence.
    + rewrite IH. split.
      * intros HF. constructor; [congruence|exact HF].
      * intros HF. inversion HF; assumption.
    + rewrite IH. split.
      * intros HF. constructor; [congruence|exact HF].
      * intros HF. inversion HF; assumption.
Qed.

(** C6: for an object that resolves through the accessor.  If one of its
    owner references is a controlling one, [EnqueueControllerOf] makes
    exactly one call on the queue, [Add] of the key made of the object's
    namespace and the name of the first controlling owner.  If none is, it
    changes nothing at all. *)
Theorem C6_EnqueueControllerOf {R W : Type} `{!RateLimitingInterface W}
  (c : Impl R (Traced W)) (obj : any) (object : metav1.Object) :
  DeletionHandlingAccessor obj = inl object ->
  (forall owner before after,
      metav1.GetOwnerReferences object = (before ++ owner :: after)%list ->
      metav1.Controller owner = Some true ->
      Forall (fun ref => metav1.Controller ref <> Some true) before ->
      let key := mkNamespacedName (metav1.GetNamespace object)
                                  (metav1.Name owner) in
      calls (WorkQueue (EnqueueControllerOf obj c))
        = (calls (WorkQueue c) ++ [CAdd (KeyItem key)])%list /\
      inner (WorkQueue (EnqueueControllerOf obj c))
        = Add (KeyItem key) (inner (WorkQueue c))) /\
  (Forall (fun ref => metav1.Controller ref <> Some true)
          (metav1.GetOwnerReferences object) ->
   EnqueueControllerOf obj c = c).
Proof.
  intros Hacc. split.
  - intros owner before after Hrefs Hctl Hbefore key.
    unfold EnqueueControllerOf. rewrite Hacc.
    assert (metav1.GetControllerOf object = Some owner) as ->; [|split; reflexivity].
    unfold metav1.GetControllerOf. rewrite Hrefs. clear Hrefs.
    induction Hbefore as [|ref before Href _ IH]; simpl.
    + unfold metav1.isController. rewrite Hctl. reflexivity.
    + unfold metav1.isController at 1.
      destruct (metav1.Controller ref) as [[|]|]; congruence.
  - intros Hnone. apply GetControllerOfNoCopy_None in Hnone.
    unfold EnqueueControllerOf, metav1.GetControllerOf.
    rewrite Hacc, Hnone. reflexivity.
Qed.

(** ** Enqueueing by label *)

(** C10: with an empty [namespaceLabel], the handler of
    [EnqueueLabelOfNamespaceScopedResource], run on an object that carries
    the name label, makes exactly one call on the queue: [Add] of the key
    made of the object's own namespace and the value of the name label. *)
Theorem C10_EnqueueLabel_own_namespace {R W : Type} `{!RateLimitingInterface W}
  (c : Impl R (Traced W)) (nameLabel : string) (obj : any)
  (object : metav1.Object) (controllerKey : string) :
  DeletionHandlingAccessor obj = inl object ->
  metav1.GetLabels object !! nameLabel = Some controllerKey ->
  let key := mkNamespacedName (metav1.GetNamespace object) controllerKey in
  let c' := EnqueueLabelOfNamespaceScopedResource "" nameLabel obj c in
  calls (WorkQueue c') = (calls (WorkQueue c) ++ [CAdd (KeyItem key)])%list /\
  inner (WorkQueue c') = Add (KeyItem key) (inner (WorkQueue c)).
Proof.
  intros Hacc Hlabel key c'. subst c'.
  unfold EnqueueLabelOfNamespaceScopedResource.
  rewrite Hacc. cbn zeta. rewrite Hlabel.
  case_decide as Hne; [contradiction Hne; reflexivity|].
  split; reflexivity.
Qed.

(** ** The failure path *)

Section FailurePath.

Context {R W : Type} `{!ReconcilerInterface R} `{!RateLimitingInterface W}.

Lemma handleErr_calls (err : error) (key : NamespacedName)
  (c : Impl R (Traced W)) :
  calls (WorkQueue (handleErr err key c))
    = (calls (WorkQueue c)
         ++ [if retried err (WorkQueue c) then CAddRateLimited (KeyItem key)
             else CForget (KeyItem key)])%list.
Proof.
  unfold handleErr, retried.
  cbn [WorkQueue logf setLogger setQueue ShuttingDown Traced_queue].
  destruct (negb (IsPermanentError (Some err)) && _); reflexivity.
Qed.

Lemma handleErr_inner (err : error) (key : NamespacedName)
  (c : Impl R (Traced W)) :
  inner (WorkQueue (handleErr err key c))
    = if retried err (WorkQueue c)
      then AddRateLimited (KeyItem key) (inner (WorkQueue c))
      else Forget (KeyItem key) (inner (WorkQueue c)).
Proof.
  unfold handleErr, retried.
  cbn [WorkQueue logf setLogger setQueue ShuttingDown Traced_queue].
  destruct (negb (IsPermanentError (Some err)) && _); reflexivity.
Qed.

(** C1: a worker takes [key] from the queue and [Reconcile] returns the
    error [err].  The calls the worker then makes on the queue are, in
    order: the [Get], one call of the failure path, and the deferred
    [Done].  The call of the failure path is [AddRateLimited key] exactly
    when [err] is not permanent and the queue is not shutting down, and it
    is [Forget key] in every other case, in which no call puts the key back
    into the queue. *)
Theorem C1_failure_path (c : Impl R (Traced W)) (key : NamespacedName)
  (q : Traced W) (traceId : string) (elapsed : Duration)
  (r : R) (err : error) :
  Get (WorkQueue c) = GetItem (KeyItem key) q ->
  Reconcile
    (WithLogger TODO
       (Logger_With [(logging.TraceId, traceId); (logging.Key, safeKey key)]
                    (logger c)))
    (safeKey key) (Reconciler c) = (r, Some err) ->
  let c' := (processNextWorkItem traceId elapsed c).2 in
  let new := [CGet;
              if retried err q then CAddRateLimited (KeyItem key)
              else CForget (KeyItem key);
              CDone (KeyItem key)] in
  calls (WorkQueue c') = (calls (WorkQueue c) ++ new)%list /\
  (CAddRateLimited (KeyItem key) ∈ new <->
     IsPermanentError (Some err) = false /\ ShuttingDown q = false) /\
  (IsPermanentError (Some err) = true \/ ShuttingDown q = true ->
     CForget (KeyItem key) ∈ new /\
     forallb (fun call => negb (isRequeue (KeyItem key) call)) new = true).
Proof.
  intros Hget Hrec c' new.
  assert (calls q = calls (WorkQueue c) ++ [CGet])%list as Hq.
  { cbn in Hget. destruct (Get (inner (WorkQueue c))); inversion Hget; reflexivity. }
  split; [|split].
  - subst c' new. unfold processNextWorkItem. rewrite Hget. cbn zeta.
    change (Reconcile _ (safeKey key) _) with
      (Reconcile
         (WithLogger TODO
            (Logger_With
               [(logging.TraceId, traceId); (logging.Key, safeKey key)]
               (logger c)))
         (safeKey key) (Reconciler c)).
    rewrite Hrec.
    cbn -[handleErr]. rewrite handleErr_calls. cbn.
    rewrite Hq, <- !app_assoc. reflexivity.
  - subst new. unfold retried.
    destruct (IsPermanentError (Some err)), (ShuttingDown q); cbn;
      rewrite !elem_of_cons, elem_of_nil; intuition congruence.
  - subst new. unfold retried.
    intros [-> | ->]; rewrite ?andb_false_r; cbn [negb andb];
      (split; [rewrite !elem_of_cons; auto | reflexivity]).
Qed.

End FailurePath.

(** ** Global resync *)

Section Resync.

Context {R W : Type} `{!RateLimitingInterface W}.

Lemma resyncDelays_S (count : Q) (n : nat) (rng : wait.Rand) :
  resyncDelays count (S n) rng
    = wait.jittered Second count (wait.samples rng (wait.pos rng))
      :: resyncDelays count n (wait.Float64 rng).2.
Proof.
  unfold resyncDelays. cbn [seq map wait.Float64 snd wait.samples wait.pos].
  rewrite Nat.add_0_r. f_equal.
  rewrite <- seq_shift, map_map.
  apply map_ext. intros i. rewrite Nat.add_succ_r. reflexivity.
Qed.

Lemma resyncRange_spec (f : any -> bool) (count : Q) (lst : list any)
  (rng : wait.Rand) (c : Impl R W) :
  let passing := filter (fun obj => f obj = true) lst in
  resyncRange f count lst rng c
    = (foldl (fun c p => EnqueueAfter p.1 p.2 c) c
             (zip passing (resyncDelays count (length passing) rng)),
       wait.skip (length passing) rng).
Proof.
  cbn zeta. revert rng c.
  induction lst as [|obj rest IH]; intros rng c.
  - destruct rng as [s p]. cbn. unfold wait.skip. cbn.
    rewrite Nat.add_0_r. reflexivity.
  - cbn [resyncRange]. rewrite filter_cons.
    destruct (f obj) eqn:Hf.
    + rewrite decide_True by reflexivity.
      cbn [length]. rewrite resyncDelays_S. cbn [zip zip_with foldl fst snd].
      unfold wait.Jitter. cbn [wait.Float64]. rewrite IH.
      f_equal. unfold wait.skip. cbn. f_equal. lia.
    + rewrite decide_False by discriminate. apply IH.
Qed.

Lemma FilteredGlobalResync_open (f : any -> bool) (si : SharedInformer)
  (rng : wait.Rand) (c : Impl R W) :
  ShuttingDown (WorkQueue c) = false ->
  FilteredGlobalResync f si rng c
    = (foldl (fun c p => EnqueueAfter p.1 p.2 c) c (resyncCalls f si rng),
       wait.skip (length (resyncCalls f si rng)) rng).
Proof.
  intros Hopen. unfold FilteredGlobalResync. rewrite Hopen.
  cbn zeta. rewrite resyncRange_spec. cbn zeta. unfold resyncCalls.
  cbn zeta. rewrite length_zip_with.
  unfold resyncDelays at 3. rewrite length_map, length_seq, Nat.min_id.
  reflexivity.
Qed.

Lemma resyncCalls_objects (f : any -> bool) (si : SharedInformer)
  (rng : wait.Rand) :
  (resyncCalls f si rng).*1
    = filter (fun obj => f obj = true) (GetStore_List si).
Proof.
  unfold resyncCalls. cbn zeta. apply fst_zip.
  unfold resyncDelays. rewrite length_map, length_seq. reflexivity.
Qed.

End Resync.

(** ** The delays of a resync *)

Lemma Second_value : Second = 1000000000.
Proof. reflexivity. Qed.

Lemma truncate_bounds (a : Z) (b : positive) (n : Z) :
  0 <= a < Zpos b -> 0 <= n ->
  0 <= wait.truncate (Qmake (a * n) b) /\
  (0 < n -> wait.truncate (Qmake (a * n) b) < n).
Proof.
  intros [Ha Hab] Hn. unfold wait.truncate. cbn [Qnum Qden].
  rewrite Z.quot_div_nonneg by nia. split.
  - apply Z.div_pos; nia.
  - intros Hpos. apply Z.div_lt_upper_bound; nia.
Qed.

Lemma jittered_Second_bounds (N : nat) (r : Q) :
  (1 <= N)%nat -> (0 <= r)%Q -> (r < 1)%Q ->
  (Z.of_nat N + 1) * Second <= maxInt64 ->
  Second <= wait.jittered Second (inject_Z (Z.of_nat N)) r
         < Second + Z.of_nat N * Second.
Proof.
  intros HN Hr0 Hr1 Hfit. rewrite Second_value in *.
  unfold maxInt64 in Hfit.
  destruct r as [a b]. unfold Qle in Hr0. unfold Qlt in Hr1. cbn in Hr0, Hr1.
  unfold wait.jittered.
  assert (Qle_bool (inject_Z (Z.of_nat N)) 0 = false) as ->.
  { unfold Qle_bool, inject_Z. cbn [Qnum Qden]. apply Z.leb_gt. lia. }
  unfold wait.Duration_of_float, dur_add.
  assert (wait.truncate ((a # b) * inject_Z (Z.of_nat N) * inject_Z 1000000000)%Q
          = wait.truncate (Qmake (a * (Z.of_nat N * 1000000000)) b)) as ->.
  { unfold wait.truncate, Qmult, inject_Z. cbn [Qnum Qden].
    rewrite !Pos.mul_1_r. f_equal. ring. }
  destruct (truncate_bounds a b (Z.of_nat N * 1000000000)) as [Hlo Hhi];
    [lia|lia|].
  specialize (Hhi ltac:(lia)).
  rewrite (wrap64_id (wait.truncate _)) by (unfold inInt64, minInt64, maxInt64; lia).
  rewrite wrap64_id by (unfold inInt64, minInt64, maxInt64; lia).
  lia.
Qed.

Section ResyncDelays.

Context {R W : Type} `{!RateLimitingInterface W}.

Lemma EnqueueAfter_calls (obj : any) (d : Duration) (c : Impl R (Traced W)) :
  calls (WorkQueue (EnqueueAfter obj d c))
    = (calls (WorkQueue c)
         ++ match DeletionHandlingAccessor obj with
            | inl object =>
                [CAddAfter
                   (KeyItem (mkNamespacedName (metav1.GetNamespace object)
                                              (metav1.GetName object))) d]
            | inr _ => []
            end)%list.
Proof.
  unfold EnqueueAfter. destruct (DeletionHandlingAccessor obj); cbn.
  - reflexivity.
  - rewrite app_nil_r. reflexivity.
Qed.

Lemma foldl_EnqueueAfter_calls (ps : list (any * Duration))
  (c : Impl R (Traced W)) (item : Item) (d : Duration) :
  CAddAfter item d
    ∈ calls (WorkQueue (foldl (fun c p => EnqueueAfter p.1 p.2 c) c ps)) ->
  CAddAfter item d ∈ calls (WorkQueue c) \/ exists p, p ∈ ps /\ p.2 = d.
Proof.
  revert c. induction ps as [|p ps IH]; intros c; cbn [foldl].
  - auto.
  - intros Hin. destruct (IH _ Hin) as [Hhere | (p' & Hp' & Hd)].
    + rewrite EnqueueAfter_calls, elem_of_app in Hhere.
      destruct Hhere as [Hold | Hnew]; [left; exact Hold|].
      right. exists p. split; [left|].
      destruct (DeletionHandlingAccessor p.1).
      * apply list_elem_of_singleton in Hnew. congruence.
      * apply elem_of_nil in Hnew. contradiction.
    + right. exists p'. split; [right; exact Hp'|exact Hd].
Qed.

Lemma resyncCalls_delay_bounds (f : any -> bool) (si : SharedInformer)
  (rng : wait.Rand) (p : any * Duration) :
  (forall i, 0 <= wait.samples rng i /\ wait.samples rng i < 1)%Q ->
  (Z.of_nat (length (GetStore_List si)) + 1) * Second <= maxInt64 ->
  p ∈ resyncCalls f si rng ->
  Second <= p.2 < Second + Z.of_nat (length (GetStore_List si)) * Second.
Proof.
  intros Hrng Hfit Hp. destruct p as [obj d]. unfold resyncCalls in Hp.
  cbn zeta in Hp.
  pose proof (elem_of_zip_l _ _ _ _ Hp) as Hobj.
  pose proof (elem_of_zip_r _ _ _ _ Hp) as Hd.
  apply list_elem_of_filter in Hobj as [_ Hobj].
  unfold resyncDelays in Hd. apply list_elem_of_In, in_map_iff in Hd.
  destruct Hd as (i & <- & _).
  apply jittered_Second_bounds; try apply Hrng; [|exact Hfit].
  destruct (GetStore_List si); [apply elem_of_nil in Hobj; contradiction|].
  cbn. lia.
Qed.

(** C3 (amended): for a store of size [N] whose jitter range fits a 64-bit
    duration and a random source with samples from 0 (included) to 1
    (excluded), every delay handed to [EnqueueAfter] by a resync, and so
    every delay of an [AddAfter] call it makes on the queue, is at least one
    second and less than one second plus [N] seconds. *)
Theorem C3_resync_delay_range (f : any -> bool) (si : SharedInformer)
  (rng : wait.Rand) (c : Impl R (Traced W)) :
  (forall i, 0 <= wait.samples rng i /\ wait.samples rng i < 1)%Q ->
  (Z.of_nat (length (GetStore_List si)) + 1) * Second <= maxInt64 ->
  (forall p, p ∈ resyncCalls f si rng ->
     Second <= p.2 < Second + Z.of_nat (length (GetStore_List si)) * Second) /\
  (forall item d,
     CAddAfter item d
       ∈ calls (WorkQueue (FilteredGlobalResync f si rng c).1) ->
     CAddAfter item d ∈ calls (WorkQueue c) \/
     Second <= d < Second + Z.of_nat (length (GetStore_List si)) * Second).
Proof.
  intros Hrng Hfit. split.
  - intros p. apply resyncCalls_delay_bounds; assumption.
  - intros item d Hin.
    destruct (ShuttingDown (WorkQueue c)) eqn:Hshut.
    + left. unfold FilteredGlobalResync in Hin. rewrite Hshut in Hin.
      exact Hin.
    + rewrite FilteredGlobalResync_open in Hin by exact Hshut.
      apply foldl_EnqueueAfter_calls in Hin as [Hold | (p & Hp & <-)];
        [left; exact Hold|right].
      apply (resyncCalls_delay_bounds f si rng); assumption.
Qed.

End ResyncDelays.

(** C3, as stated, fails: a resync over a store of one object, with the
    random source returning 0, enqueues the object after exactly one second,
    which is not below [N] times one second for [N = 1]. *)
Lemma C3_counterexample :
  (forall i, 0 <= wait.samples Sample.zeros i /\
             wait.samples Sample.zeros i < 1)%Q /\
  calls (WorkQueue (GlobalResync Sample.store Sample.zeros Sample.controller).1)
    = [CAddAfter (KeyItem (mkNamespacedName "prod" "web-7f9c-abcde")) Second] /\
  ~ (0 <= Second
       < Z.of_nat (length (GetStore_List Sample.store)) * Second).
Proof.
  split; [|split].
  - intros i. cbn. split; [apply Qle_refl | reflexivity].
  - vm_compute. reflexivity.
  - vm_compute. intros [_ H]. discriminate H.
Qed.

Lemma C3_witness :
  Forall (fun p : any * Duration => Second <= p.2 < Second + 1 * Second)
         (resyncCalls (fun _ => true) Sample.store Sample.zeros).
Proof.
  apply Forall_forall.
  apply (C3_resync_delay_range (R := Spy) (fun _ => true) Sample.store
           Sample.zeros Sample.controller).
  - intros i. cbn. split; [apply Qle_refl | reflexivity].
  - vm_compute. discriminate.
Defined.

(** ** The sync barrier *)



Lemma poll_true (fuel : nat) (stopCh : StopCh) (cacheSync : nat -> bool)
  (now t : nat) :
  cache.poll fuel stopCh cacheSync now = Some (true, t) ->
  (now <= t)%nat /\ cacheSync t = true /\ closed stopCh t = false.
Proof.
  revert now. induction fuel as [|fuel IH]; intros now; cbn; [discriminate|].
  destruct (closed stopCh now) eqn:Hc; [discriminate|].
  destruct (cacheSync now) eqn:Hs.
  - intros [= <-]. auto.
  - intros H. apply IH in H. split; [lia|apply H].
Qed.

Lemma poll_false (fuel : nat) (stopCh : StopCh) (cacheSync : nat -> bool)
  (now t : nat) :
  cache.poll fuel stopCh cacheSync now = Some (false, t) ->
  (now <= t)%nat /\ closed stopCh t = true /\
  forall t', (now <= t' < t)%nat ->
             cacheSync t' = false /\ closed stopCh t' = false.
Proof.
  revert now. induction fuel as [|fuel IH]; intros now; cbn; [discriminate|].
  destruct (closed stopCh now) eqn:Hc.
  - intros [= <-]. split; [lia|]. split; [exact Hc|]. intros t' Ht'. lia.
  - destruct (cacheSync now) eqn:Hs; [discriminate|].
    intros H. apply IH in H as (Hle & Hclosed & Hbefore).
    split; [lia|]. split; [exact Hclosed|].
    intros t' Ht'. destruct (decide (t' = now)) as [->|Hne]; [auto|].
    apply Hbefore. lia.
Qed.


Lemma WaitForCacheSync_true (fuel : nat) (stopCh : StopCh)
  (cacheSync : nat -> bool) (now t : nat) :
  cache.WaitForCacheSync fuel stopCh cacheSync now = Some (true, t) ->
  (now <= t)%nat /\ cacheSync t = true /\
  (t = now \/ closed stopCh t = false).
Proof.
  unfold cache.WaitForCacheSync. destruct (cacheSync now) eqn:Hs.
  - intros [= <-]. auto.
  - destruct (closed stopCh now); [discriminate|].
    intros H. apply poll_true in H as (Hle & Ht & Hc).
    split; [lia|]. auto.
Qed.

Lemma WaitForCacheSync_false (fuel : nat) (stopCh : StopCh)
  (cacheSync : nat -> bool) (now t : nat) :
  cache.WaitForCacheSync fuel stopCh cacheSync now = Some (false, t) ->
  (now <= t)%nat /\ closed stopCh t = true /\ cacheSync now = false /\
  forall t', (now <= t' < t)%nat ->
             cacheSync t' = false /\ closed stopCh t' = false.
Proof.
  unfold cache.WaitForCacheSync. destruct (cacheSync now) eqn:Hs;
    [discriminate|].
  destruct (closed stopCh now) eqn:Hc.
  - intros [= <-]. split; [lia|]. split; [exact Hc|]. split; [reflexivity|].
    intros t' Ht'. lia.
  - intros H. apply poll_false in H as (Hle & Hclosed & Hbefore).
    split; [lia|]. split; [exact Hclosed|]. split; [reflexivity|].
    intros t' Ht'. destruct (decide (t' = now)) as [->|Hne]; [auto|].
    apply Hbefore. lia.
Qed.




Lemma waitForSync_later (fuel : nat) (stopCh : StopCh)
  (informers : list Informer) (i now t : nat) (res : option error) :
  waitForSync fuel stopCh informers i now = Some (res, t) -> (now <= t)%nat.
Proof.
  revert i now. induction informers as [|informer rest IH]; intros i now; cbn.
  - intros [= _ <-]. lia.
  - destruct (cache.WaitForCacheSync fuel stopCh (HasSynced informer) now)
      as [[[|] t1]|] eqn:Hw; [| |discriminate].
    + apply WaitForCacheSync_true in Hw as [Hle _].
      intros Hrest. apply IH in Hrest. lia.
    + apply WaitForCacheSync_false in Hw as [Hle _].
      intros [= _ <-]. lia.
Qed.





Lemma list_ascii_of_string_app (a b : string) :
  String.list_ascii_of_string (a +:+ b)
    = (String.list_ascii_of_string a ++ String.list_ascii_of_string b)%list.
Proof.
  induction a as [|ch a IH]; [reflexivity|].
  change (String ch a +:+ b) with (String ch (a +:+ b)).
  cbn [String.list_ascii_of_string]. rewrite IH. reflexivity.
Qed.

Lemma string_app_inv_tail (a b s : string) : a +:+ s = b +:+ s -> a = b.
Proof.
  intros Heq. apply (f_equal String.list_ascii_of_string) in Heq.
  rewrite !list_ascii_of_string_app in Heq. apply app_inv_tail in Heq.
  rewrite <- (String.string_of_list_ascii_of_string a),
          <- (String.string_of_list_ascii_of_string b), Heq.
  reflexivity.
Qed.

(** The error names the index: different indices give different errors. *)
Lemma syncError_inj (i j : nat) : syncError i = syncError j -> i = j.
Proof.
  unfold syncError. intros [= H].
  change (pretty i +:+ " to sync" = pretty j +:+ " to sync") in H.
  apply string_app_inv_tail in H. apply (inj pretty) in H. exact H.
Qed.



Example StartInformers_stopped :
  StartInformers 10 (Some 5%nat)
    [Sample.syncsAt 2; Sample.neverSyncs; Sample.syncsAt 1]
    = Some (Some (errorString "failed to wait for cache at index 1 to sync"),
            5%nat).
Proof. vm_compute. reflexivity. Qed.

Example StartInformers_synced :
  StartInformers 10 (Some 5%nat) [Sample.syncsAt 2; Sample.syncsAt 1]
    = Some (None, 2%nat).
Proof. vm_compute. reflexivity. Qed.

(** ** No duplicate processing *)

Section QueueInvariant.

#[local] Set Warnings "-clear-no-such-hyp".

Implicit Types (q : WorkQ.t) (item x : Item).

Lemma Add_queueInv item q :
  Pool.queueInv q -> Pool.queueInv (WorkQ.Add item q).
Proof.
  intros [Hnd Hiff]. unfold WorkQ.Add.
  destruct (decide (item ∈ WorkQ.dirty q)) as [Hd|Hd]; [split; assumption|].
  destruct (decide (item ∈ WorkQ.processing q)) as [Hp|Hp]; split; cbn.
  - exact Hnd.
  - intros x. rewrite Hiff. set_solver.
  - apply NoDup_app. split; [exact Hnd|]. split; [|apply NoDup_singleton].
    intros x Hx ->%list_elem_of_singleton. apply Hiff in Hx. tauto.
  - intros x. rewrite elem_of_app, list_elem_of_singleton, Hiff. set_solver.
Qed.

Lemma Add_processing item q :
  WorkQ.processing (WorkQ.Add item q) = WorkQ.processing q.
Proof. unfold WorkQ.Add. repeat case_decide; reflexivity. Qed.

Lemma AddAfter_queueInv item d q :
  Pool.queueInv q -> Pool.queueInv (WorkQ.AddAfter item d q).
Proof.
  intros Hq. unfold WorkQ.AddAfter.
  destruct (WorkQ.shuttingDown q); [exact Hq|].
  case_decide; [apply Add_queueInv; exact Hq|exact Hq].
Qed.

Lemma AddAfter_processing item d q :
  WorkQ.processing (WorkQ.AddAfter item d q) = WorkQ.processing q.
Proof.
  unfold WorkQ.AddAfter. destruct (WorkQ.shuttingDown q); [reflexivity|].
  case_decide; [apply Add_processing|reflexivity].
Qed.

Lemma AddRateLimited_queueInv item q :
  Pool.queueInv q -> Pool.queueInv (WorkQ.AddRateLimited item q).
Proof. intros Hq. unfold WorkQ.AddRateLimited. apply AddAfter_queueInv, Hq. Qed.

Lemma AddRateLimited_processing item q :
  WorkQ.processing (WorkQ.AddRateLimited item q) = WorkQ.processing q.
Proof. unfold WorkQ.AddRateLimited. rewrite AddAfter_processing. reflexivity. Qed.

Lemma fire_queueInv item q :
  Pool.queueInv q -> Pool.queueInv (WorkQ.fire item q).
Proof.
  intros Hq. unfold WorkQ.fire. destruct (WorkQ.waiting q !! item); [|exact Hq].
  case_decide; [apply Add_queueInv; split; apply Hq|exact Hq].
Qed.

Lemma fire_processing item q :
  WorkQ.processing (WorkQ.fire item q) = WorkQ.processing q.
Proof.
  unfold WorkQ.fire. destruct (WorkQ.waiting q !! item); [|reflexivity].
  case_decide; [rewrite Add_processing|]; reflexivity.
Qed.

Lemma Get_item_queueInv q item q' :
  Pool.queueInv q -> WorkQ.Get q = GetItem item q' ->
  Pool.queueInv q' /\
  (item ∈ WorkQ.queue q) /\ (item ∉ WorkQ.processing q) /\
  (WorkQ.processing q' = {[item]} ∪ WorkQ.processing q).
Proof.
  intros [Hnd Hiff]. unfold WorkQ.Get.
  destruct (WorkQ.queue q) as [|x rest] eqn:Hqueue.
  - destruct (WorkQ.shuttingDown q); discriminate.
  - intros [= <- <-]. apply NoDup_cons in Hnd as [Hx Hrest].
    assert (x ∈ WorkQ.dirty q /\ x ∉ WorkQ.processing q) as [Hxd Hxp]
      by (apply Hiff; left).
    split; [split; [exact Hrest|]|].
    + intros y. cbn. pose proof (Hiff y) as Hy. rewrite elem_of_cons in Hy.
      destruct (decide (y = x)) as [->|Hne]; set_solver.
    + split; [left|]. split; [exact Hxp|reflexivity].
Qed.

Lemma Get_shutdown q q' : WorkQ.Get q = GetShutdown q' -> q' = q.
Proof.
  unfold WorkQ.Get. destruct (WorkQ.queue q); [|discriminate].
  destruct (WorkQ.shuttingDown q); [|discriminate]. congruence.
Qed.

Lemma Done_queueInv item q :
  Pool.queueInv q -> item ∈ WorkQ.processing q ->
  Pool.queueInv (WorkQ.Done item q).
Proof.
  intros [Hnd Hiff] Hp. unfold WorkQ.Done.
  assert (item ∉ WorkQ.queue q) as Hnq by (rewrite Hiff; tauto).
  case_decide as Hd; split; cbn.
  - apply NoDup_app. split; [exact Hnd|]. split; [|apply NoDup_singleton].
    intros x Hx ->%list_elem_of_singleton. contradiction.
  - intros x. rewrite elem_of_app, list_elem_of_singleton, Hiff.
    destruct (decide (x = item)) as [->|Hne]; set_solver.
  - exact Hnd.
  - intros x. rewrite Hiff.
    destruct (decide (x = item)) as [->|Hne]; set_solver.
Qed.

Lemma Done_processing item q :
  WorkQ.processing (WorkQ.Done item q) = WorkQ.processing q ∖ {[item]}.
Proof. unfold WorkQ.Done. case_decide; reflexivity. Qed.

End QueueInvariant.

Section PoolInvariant.

#[local] Set Warnings "-clear-no-such-hyp".

Import Pool.

Lemma Inv_Run (threadiness : nat) (backoff : nat -> Duration) :
  Inv (Run threadiness backoff).
Proof.
  split; [split|split]; cbn.
  - apply NoDup_nil_2.
  - intros x. rewrite elem_of_nil. set_solver.
  - intros i p x Hp Hh. apply lookup_replicate in Hp as [-> _]. discriminate.
  - intros i j p p' x Hp _ Hh. apply lookup_replicate in Hp as [-> _].
    discriminate.
Qed.

(** A change of the queue that keeps its invariant and the set of items
    being processed, made while no worker moves. *)
Lemma Inv_queue_only (s : System) (q' : WorkQ.t) :
  Inv s -> queueInv q' ->
  WorkQ.processing q' = WorkQ.processing (wq s) ->
  Inv (mkSystem q' (workers s)).
Proof.
  intros (Hq & Hheld & Huniq) Hq' Hproc. split; [exact Hq'|]. cbn. split.
  - intros i p x Hp Hh. rewrite Hproc. apply (Hheld i p x Hp Hh).
  - exact Huniq.
Qed.

(** A worker moves on while holding the same item. *)
Lemma Inv_keep (s : System) (i : nat) (p p' : pc) (q' : WorkQ.t) :
  Inv s -> workers s !! i = Some p -> holds p' = holds p ->
  queueInv q' -> WorkQ.processing q' = WorkQ.processing (wq s) ->
  Inv (mkSystem q' (<[i := p']> (workers s))).
Proof.
  intros (Hq & Hheld & Huniq) Hi Hsame Hq' Hproc.
  split; [exact Hq'|]. cbn. split.
  - intros j pj x Hj Hh. rewrite Hproc.
    apply list_lookup_insert_Some in Hj as [(<- & <- & _) | [Hne Hj]].
    + apply (Hheld i p x Hi). congruence.
    + apply (Hheld j pj x Hj Hh).
  - intros j k pj pk x Hj Hk Hhj Hhk.
    apply list_lookup_insert_Some in Hj as [(<- & <- & _) | [Hnej Hj]];
      apply list_lookup_insert_Some in Hk as [(<- & <- & _) | [Hnek Hk]].
    + reflexivity.
    + apply (Huniq i k p pk x); congruence.
    + apply (Huniq j i pj p x); congruence.
    + apply (Huniq j k pj pk x); assumption.
Qed.

(** A worker takes an item out of the queue. *)
Lemma Inv_acquire (s : System) (i : nat) (p p' : pc) (item : Item)
  (q' : WorkQ.t) :
  Inv s -> workers s !! i = Some p ->
  WorkQ.Get (wq s) = GetItem item q' -> holds p' = Some item ->
  Inv (mkSystem q' (<[i := p']> (workers s))).
Proof.
  intros (Hq & Hheld & Huniq) Hi Hget Hnew.
  destruct (Get_item_queueInv _ _ _ Hq Hget) as (Hq' & _ & Hfree & Hproc).
  split; [exact Hq'|]. cbn. split.
  - intros j pj x Hj Hh. rewrite Hproc.
    apply list_lookup_insert_Some in Hj as [(<- & <- & _) | [Hne Hj]].
    + set_solver.
    + pose proof (Hheld j pj x Hj Hh). set_solver.
  - intros j k pj pk x Hj Hk Hhj Hhk.
    apply list_lookup_insert_Some in Hj as [(<- & <- & _) | [Hnej Hj]];
      apply list_lookup_insert_Some in Hk as [(<- & <- & _) | [Hnek Hk]].
    + reflexivity.
    + exfalso. apply Hfree. apply (Hheld k pk item Hk). congruence.
    + exfalso. apply Hfree. apply (Hheld j pj item Hj). congruence.
    + apply (Huniq j k pj pk x); assumption.
Qed.

(** A worker gives its item back. *)
Lemma Inv_release (s : System) (i : nat) (p p' : pc) (item : Item) :
  Inv s -> workers s !! i = Some p ->
  holds p = Some item -> holds p' = None ->
  Inv (mkSystem (WorkQ.Done item (wq s)) (<[i := p']> (workers s))).
Proof.
  intros (Hq & Hheld & Huniq) Hi Hold Hnew.
  split; [apply Done_queueInv; [exact Hq|apply (Hheld i p item Hi Hold)]|].
  cbn. rewrite Done_processing. split.
  - intros j pj x Hj Hh.
    apply list_lookup_insert_Some in Hj as [(<- & <- & _) | [Hne Hj]];
      [congruence|].
    apply elem_of_difference. split; [apply (Hheld j pj x Hj Hh)|].
    intros ->%elem_of_singleton. apply Hne.
    apply (Huniq i j p pj item); assumption.
  - intros j k pj pk x Hj Hk Hhj Hhk.
    apply list_lookup_insert_Some in Hj as [(<- & <- & _) | [Hnej Hj]];
      [congruence|].
    apply list_lookup_insert_Some in Hk as [(<- & <- & _) | [Hnek Hk]];
      [congruence|].
    apply (Huniq j k pj pk x); assumption.
Qed.

Lemma Inv_id (s : System) (i : nat) (p : pc) :
  Inv s -> workers s !! i = Some p ->
  forall p', holds p' = holds p ->
  Inv (mkSystem (wq s) (<[i := p']> (workers s))).
Proof.
  intros HI Hi p' Hsame. apply (Inv_keep s i p p'); try assumption.
  - apply HI.
  - reflexivity.
Qed.

Lemma Inv_exec (ev : Event) (s s' : System) :
  Inv s -> exec ev s = Some s' -> Inv s'.
Proof.
  intros HI. pose proof HI as (Hq & _ & _).
  destruct ev as [i result|item|item delay| |d|item]; cbn.
  - destruct (workers s !! i) as [p|] eqn:Hi; [|discriminate].
    destruct p as [|key|key err|key|key|key| |item]; cbn.
    + destruct (WorkQ.Get (wq s)) as [[key|repr] q'|q'|] eqn:Hget;
        cbn; [| | |discriminate]; intros [= <-].
      * apply (Inv_acquire s i AtGet _ (KeyItem key)); auto.
      * apply (Inv_acquire s i AtGet _ (RawItem repr)); auto.
      * apply Get_shutdown in Hget as ->.
        apply (Inv_id s i AtGet); auto.
    + destruct result; cbn; intros [= <-];
        apply (Inv_id s i (InReconcile key)); auto.
    + match goal with |- context [if ?b then _ else _] => destruct b end;
        cbn; intros [= <-]; apply (Inv_id s i (AtHandleErr key err)); auto.
    + intros [= <-]. apply (Inv_keep s i (AtAddRateLimited key)); auto.
      * apply AddRateLimited_queueInv, Hq.
      * apply AddRateLimited_processing.
    + intros [= <-]. apply (Inv_keep s i (AtForget key)); auto.
    + intros [= <-]. apply (Inv_release s i (AtDone key)); auto.
    + discriminate.
    + discriminate.
  - intros [= <-]. apply Inv_queue_only; [exact HI| |].
    + apply Add_queueInv, Hq.
    + apply Add_processing.
  - intros [= <-]. apply Inv_queue_only; [exact HI| |].
    + apply AddAfter_queueInv, Hq.
    + apply AddAfter_processing.
  - intros [= <-]. apply Inv_queue_only; [exact HI|exact Hq|reflexivity].
  - intros [= <-]. apply Inv_queue_only; [exact HI|exact Hq|reflexivity].
  - intros [= <-]. apply Inv_queue_only; [exact HI| |].
    + apply fire_queueInv, Hq.
    + apply fire_processing.
Qed.

Lemma Inv_run (evs : list Event) (s s' : System) :
  Inv s -> run evs s = Some s' -> Inv s'.
Proof.
  revert s. induction evs as [|ev evs IH]; intros s HI; cbn.
  - intros [= <-]. exact HI.
  - destruct (exec ev s) as [s1|] eqn:Hexec; [|discriminate].
    apply IH. apply (Inv_exec ev s s1 HI Hexec).
Qed.

Lemma Inv_reachable (threadiness : nat) (backoff : nat -> Duration)
  (s : System) :
  reachable threadiness backoff s -> Inv s.
Proof. intros [evs Hrun]. apply (Inv_run evs _ s (Inv_Run _ _) Hrun). Qed.

End PoolInvariant.

Section Counting.

Context {A : Type} (P : A -> Prop) `{!forall x, Decision (P x)}.

Lemma filter_length_none (l : list A) :
  (forall x, x ∈ l -> ~ P x) -> length (filter P l) = 0%nat.
Proof.
  intros Hnone. destruct (filter P l) as [|y rest] eqn:Hf; [reflexivity|].
  assert (y ∈ filter P l) as Hy by (rewrite Hf; left).
  apply list_elem_of_filter in Hy as [HP Hy]. destruct (Hnone y Hy HP).
Qed.

Lemma filter_length_unique (l : list A) :
  (forall i j x y, l !! i = Some x -> l !! j = Some y -> P x -> P y -> i = j) ->
  (length (filter P l) <= 1)%nat.
Proof.
  induction l as [|a l IH]; intros Huniq; [cbn; lia|].
  rewrite filter_cons. case_decide as Ha.
  - cbn [length]. rewrite filter_length_none; [lia|].
    intros y Hy HPy. apply list_elem_of_lookup in Hy as [j Hj].
    specialize (Huniq 0%nat (S j) a y eq_refl Hj Ha HPy). discriminate.
  - apply IH. intros i j x y Hi Hj Hx Hy.
    specialize (Huniq (S i) (S j) x y Hi Hj Hx Hy). lia.
Qed.

Lemma filter_length_positive (l : list A) :
  (0 < length (filter P l))%nat -> exists x, x ∈ l /\ P x.
Proof.
  destruct (filter P l) as [|y rest] eqn:Hf; cbn; [lia|]. intros _.
  assert (y ∈ filter P l) as Hy by (rewrite Hf; left).
  apply list_elem_of_filter in Hy as [HP Hy]. exists y. auto.
Qed.

End Counting.

(** C9: in every state the pool can reach, whatever the interleaving of
    producers, timers and workers, at most one call to [Reconcile] is running
    for any key, and any item has at most one occurrence counting the queue
    and the workers that hold it. *)
Theorem C9_no_duplicate_processing (threadiness : nat)
  (backoff : nat -> Duration) (s : Pool.System) :
  Pool.reachable threadiness backoff s ->
  (forall key, (Pool.reconciling key s <= 1)%nat) /\
  (forall item, (Pool.queued item s + Pool.holders item s <= 1)%nat).
Proof.
  intros Hreach. apply Inv_reachable in Hreach as ((Hnd & Hiff) & Hheld & Huniq).
  assert (forall item, (Pool.holders item s <= 1)%nat) as Hholders.
  { intros item. apply filter_length_unique.
    intros i j p p' Hi Hj Hp Hp'. apply (Huniq i j p p' item); assumption. }
  split.
  - intros key. apply filter_length_unique.
    intros i j p p' Hi Hj -> ->.
    apply (Huniq i j _ _ (KeyItem key) Hi Hj); reflexivity.
  - intros item.
    assert (Pool.queued item s <= 1)%nat as Hqueued.
    { apply filter_length_unique. intros i j x y Hi Hj -> ->.
      apply (NoDup_lookup _ i j item Hnd Hi Hj). }
    destruct (decide (Pool.queued item s = 0)%nat) as [->|Hpos];
      [apply Hholders|].
    assert (Pool.holders item s = 0)%nat as ->; [|lia].
    apply filter_length_none. intros p Hp Hh.
    destruct (filter_length_positive (fun x => x = item) (WorkQ.queue (Pool.wq s)))
      as (x & Hx & ->); [unfold Pool.queued in Hpos; lia|].
    apply Hiff in Hx as [_ Hfree]. apply Hfree.
    apply list_elem_of_lookup in Hp as [i Hi].
    apply (Hheld i p _ Hi Hh).
Qed.

Lemma C9_witness :
  match Pool.run Pool.busy (Pool.Run 2 Sample.backoff) with
  | Some s =>
      (Pool.reconciling (mkNamespacedName "prod" "web") s <= 1)%nat /\
      (Pool.queued (KeyItem (mkNamespacedName "prod" "web")) s
       + Pool.holders (KeyItem (mkNamespacedName "prod" "web")) s <= 1)%nat
  | None => False
  end.
Proof.
  destruct (Pool.run Pool.busy (Pool.Run 2 Sample.backoff)) as [s|] eqn:Hrun.
  - destruct (C9_no_duplicate_processing 2 Sample.backoff s) as [Hrec Hocc].
    + exists Pool.busy. exact Hrun.
    + split; [apply Hrec|apply Hocc].
  - vm_compute in Hrun. discriminate Hrun.
Defined.

Example busy_end :
  match Pool.run Pool.busy (Pool.Run 2 Sample.backoff) with
  | Some s =>
      Pool.workers s
        = [Pool.InReconcile (mkNamespacedName "prod" "web"); Pool.AtGet] /\
      WorkQ.queue (Pool.wq s) = [] /\
      WorkQ.shuttingDown (Pool.wq s) = true
  | None => False
  end.
Proof. vm_compute. repeat split. Qed.

(** ** The theorems at the sample data *)

Lemma C1_witness :
  calls (WorkQueue
           (processNextWorkItem "trace-1" 1500000
              (EnqueueKey (mkNamespacedName "prod" "web") Sample.controller)).2)
    = [CAdd (KeyItem (mkNamespacedName "prod" "web")); CGet;
       CAddRateLimited (KeyItem (mkNamespacedName "prod" "web"));
       CDone (KeyItem (mkNamespacedName "prod" "web"))].
Proof.
  pose (c := EnqueueKey (mkNamespacedName "prod" "web") Sample.controller).
  pose (q := match Get (WorkQueue c) with
             | GetItem _ q => q
             | _ => WorkQueue c
             end).
  assert (Get (WorkQueue c) = GetItem (KeyItem (mkNamespacedName "prod" "web")) q)
    as Hget by (vm_compute; reflexivity).
  destruct (@C1_failure_path Spy WorkQ.t Spy_reconciler WorkQ_queue
              c (mkNamespacedName "prod" "web") q "trace-1"
              1500000 (mkSpy Sample.failing ["prod/web"])
              (errorString "conflict") Hget eq_refl)
    as (Hcalls & _).
  fold c. rewrite Hcalls. vm_compute. reflexivity.
Defined.

Lemma C2_witness :
  IsPermanentError
    (Some (NewPermanentError (Some (errorString "invalid spec")))) = true.
Proof.
  destruct C2_IsPermanentError_structural as [Hiff _].
  apply Hiff. exists (Some (errorString "invalid spec")). reflexivity.
Defined.

Lemma C6_witness :
  calls (WorkQueue (EnqueueControllerOf (AnObject Sample.pod) Sample.controller))
    = [CAdd (KeyItem (mkNamespacedName "prod" "web-7f9c"))] /\
  EnqueueControllerOf (AnObject Sample.configMap) Sample.controller
    = Sample.controller.
Proof.
  destruct (C6_EnqueueControllerOf Sample.controller (AnObject Sample.pod)
              Sample.pod eq_refl) as [Howner _].
  destruct (C6_EnqueueControllerOf Sample.controller
              (AnObject Sample.configMap) Sample.configMap eq_refl)
    as [_ Hnone].
  split.
  - apply (Howner (metav1.mkOwnerReference "apps/v1" "ReplicaSet" "web-7f9c"
                     (Some true))
                  [metav1.mkOwnerReference "v1" "Node" "node-1" None]
                  [metav1.mkOwnerReference "apps/v1" "Deployment" "web"
                     (Some false)]).
    + reflexivity.
    + reflexivity.
    + repeat constructor. discriminate.
  - apply Hnone. repeat constructor. discriminate.
Defined.

Lemma C7_witness :
  seen (Reconciler
          (processNextWorkItem "trace-1" 1500000
             (EnqueueKey (mkNamespacedName "" "cluster")
                (EnqueueKey (mkNamespacedName "prod" "web")
                   Sample.controller))).2)
    = ["prod/web"] /\
  safeKey (mkNamespacedName "" "cluster") = "cluster".
Proof.
  pose (c := EnqueueKey (mkNamespacedName "" "cluster")
               (EnqueueKey (mkNamespacedName "prod" "web") Sample.controller)).
  pose (q := match Get (WorkQueue c) with
             | GetItem _ q => q
             | _ => WorkQueue c
             end).
  assert (Get (WorkQueue c) = GetItem (KeyItem (mkNamespacedName "prod" "web")) q)
    as Hget by (vm_compute; reflexivity).
  destruct (C7_Reconcile_key_string c (mkNamespacedName "prod" "web") q
              "trace-1" 1500000 Hget) as [Hseen _].
  split; [|reflexivity]. fold c. rewrite Hseen. reflexivity.
Defined.

Lemma C10_witness :
  calls (WorkQueue
           (EnqueueLabelOfNamespaceScopedResource "" "parent"
              (AnObject Sample.pod) Sample.controller))
    = [CAdd (KeyItem (mkNamespacedName "prod" "web-route"))].
Proof.
  destruct (C10_EnqueueLabel_own_namespace Sample.controller "parent"
              (AnObject Sample.pod) Sample.pod "web-route" eq_refl)
    as [Hcalls _].
  - vm_compute. reflexivity.
  - exact Hcalls.
Defined.

Example EnqueueLabel_namespace_label :
  calls (WorkQueue
           (EnqueueLabelOfNamespaceScopedResource "parent-ns" "parent"
              (AnObject Sample.pod) Sample.controller))
    = [CAdd (KeyItem (mkNamespacedName "routing" "web-route"))].
Proof. vm_compute. reflexivity. Qed.

(** Ten objects listed, one of them rejected by the filter: nine delayed
    additions, each between one and eleven seconds. *)
Example resync_nine_of_ten :
  let c' := (FilteredGlobalResync
               (fun obj => negb (FilterWithName "obj-3" obj))
               Sample.ten Sample.quarters Sample.controller).1 in
  length (calls (WorkQueue c')) = 9%nat /\
  forallb (fun call => match call with
                       | CAddAfter _ d => (Second <=? d) && (d <? 11 * Second)
                       | _ => false
                       end) (calls (WorkQueue c')) = true /\
  length (calls (WorkQueue (GlobalResync Sample.ten Sample.quarters
                              Sample.controller).1)) = 10%nat.
Proof. vm_compute. repeat split. Qed.

(** ** The failure path on the modelled queue *)

(** When the failure path does not retry, it leaves the queue, the dirty
    set, the processing set and the delayed entries as they are: only the
    failure history of the key is cleared. *)
Lemma handleErr_no_requeue {R : Type} (err : error) (key : NamespacedName)
  (c : Impl R WorkQ.t) :
  retried err (WorkQueue c) = false ->
  let q' := WorkQueue (handleErr err key c) in
  WorkQ.queue q' = WorkQ.queue (WorkQueue c) /\
  WorkQ.dirty q' = WorkQ.dirty (WorkQueue c) /\
  WorkQ.processing q' = WorkQ.processing (WorkQueue c) /\
  WorkQ.waiting q' = WorkQ.waiting (WorkQueue c) /\
  WorkQ.failures q' !! KeyItem key = None.
Proof.
  unfold retried, handleErr. cbn [WorkQueue logf setLogger setQueue].
  intros ->. cbn. repeat split. apply lookup_delete_eq.
Qed.

(** ** The pool follows [processNextWorkItem]

    A single worker that runs alone makes, step by step, the queue calls of
    one call of [processNextWorkItem], and ends where the next call
    starts. *)
Lemma worker_steps_processNextWorkItem {R : Type} `{!ReconcilerInterface R}
  (c : Impl R WorkQ.t) (key : NamespacedName) (q : WorkQ.t)
  (traceId : string) (elapsed : Duration) :
  Get (WorkQueue c) = GetItem (KeyItem key) q ->
  let res :=
    (Reconcile
       (WithLogger TODO
          (Logger_With [(logging.TraceId, traceId); (logging.Key, safeKey key)]
                       (logger c)))
       (safeKey key) (Reconciler c)).2 in
  exists n,
    Pool.run (replicate n (Pool.Worker 0 res))
             (Pool.mkSystem (WorkQueue c) [Pool.AtGet])
    = Some (Pool.mkSystem
              (WorkQueue (processNextWorkItem traceId elapsed c).2)
              [Pool.AtGet]).
Proof.
  intros Hget res. subst res. unfold processNextWorkItem. rewrite Hget.
  cbn zeta.
  change (Reconcile _ (safeKey key) _) with
    (Reconcile
       (WithLogger TODO
          (Logger_With [(logging.TraceId, traceId); (logging.Key, safeKey key)]
                       (logger c)))
       (safeKey key) (Reconciler c)).
  destruct (Reconcile _ (safeKey key) (Reconciler c)) as [r [err|]].
  - exists 5%nat. cbn [replicate Pool.run Pool.exec Pool.workers Pool.wq snd].
    cbn [lookup list_lookup Pool.workerStep]. rewrite Hget.
    cbn -[handleErr IsPermanentError AddRateLimited Done Forget ShuttingDown].
    unfold handleErr. cbn [WorkQueue logf setLogger setQueue setReconciler].
    destruct (negb (IsPermanentError (Some err)) && negb (ShuttingDown q));
      reflexivity.
  - exists 4%nat. cbn [replicate Pool.run Pool.exec Pool.workers Pool.wq snd].
    cbn [lookup list_lookup Pool.workerStep]. rewrite Hget. reflexivity.
Qed.

(** * Further properties of the package *)

(** ** One call of [processNextWorkItem] *)

Section WorkItem.

Context {R W : Type} `{!ReconcilerInterface R} `{!RateLimitingInterface W}.

(** The context [processNextWorkItem] hands to [Reconcile]. *)
Local Abbreviation itemContext traceId key c :=
  (WithLogger TODO
     (Logger_With [(logging.TraceId, traceId); (logging.Key, safeKey key)]
                  (logger c))).

(** Whatever [Reconcile] returns for a key taken from the queue, the call
    returns true (the worker goes on), and the calls made on the queue are the
    [Get], exactly one of [Forget] and [AddRateLimited], and the deferred
    [Done] last; when [Reconcile] succeeds the middle call is [Forget]. *)
Theorem processNextWorkItem_settles (c : Impl R (Traced W))
  (key : NamespacedName) (q : Traced W) (traceId : string)
  (elapsed : Duration) (r : R) (res : option error) :
  Get (WorkQueue c) = GetItem (KeyItem key) q ->
  Reconcile (itemContext traceId key c) (safeKey key) (Reconciler c)
    = (r, res) ->
  let out := processNextWorkItem traceId elapsed c in
  out.1 = Return true /\
  Reconciler out.2 = r /\
  exists settle,
    calls (WorkQueue out.2)
      = (calls (WorkQueue c) ++ [CGet; settle; CDone (KeyItem key)])%list /\
    (settle = CForget (KeyItem key) \/ settle = CAddRateLimited (KeyItem key)) /\
    (res = None -> settle = CForget (KeyItem key)).
Proof.
  intros Hget Hrec out.
  assert (calls q = calls (WorkQueue c) ++ [CGet])%list as Hq.
  { cbn in Hget. destruct (Get (inner (WorkQueue c))); inversion Hget; reflexivity. }
  subst out. unfold processNextWorkItem. rewrite Hget. cbn zeta.
  change (Reconcile _ (safeKey key) _) with
    (Reconcile (itemContext traceId key c) (safeKey key) (Reconciler c)).
  rewrite Hrec. destruct res as [err|].
  - cbn -[handleErr]. split; [reflexivity|].
    split; [apply handleErr_Reconciler|].
    exists (if retried err q then CAddRateLimited (KeyItem key)
            else CForget (KeyItem key)).
    split; [|split].
    + rewrite handleErr_calls. cbn. rewrite Hq, <- !app_assoc. reflexivity.
    + destruct (retried err q); auto.
    + discriminate.
  - cbn. split; [reflexivity|]. split; [reflexivity|].
    exists (CForget (KeyItem key)). split; [|auto].
    rewrite Hq, <- !app_assoc. reflexivity.
Qed.

(** The call returns false exactly when [Get] reports that the queue has shut
    down; the reconciler and the logger are then left as they were and no
    other method of the queue is called. *)
Theorem processNextWorkItem_stops_on_shutdown (c : Impl R W)
  (traceId : string) (elapsed : Duration) :
  ((processNextWorkItem traceId elapsed c).1 = Return false <->
   exists q, Get (WorkQueue c) = GetShutdown q) /\
  (forall q, Get (WorkQueue c) = GetShutdown q ->
             (processNextWorkItem traceId elapsed c).2 = setQueue q c).
Proof.
  unfold processNextWorkItem. split.
  - destruct (Get (WorkQueue c)) as [[key|repr] q|q|]; cbn.
    + destruct (Reconcile _ _ _) as [r [err|]]; cbn;
        (split; [discriminate|intros [? [=]]]).
    + split; [discriminate|intros [? [=]]].
    + split; [eauto|reflexivity].
    + split; [discriminate|intros [? [=]]].
  - intros q ->. reflexivity.
Qed.

(** An item that is not a key makes the call panic at the type assertion,
    which comes before the [defer]: [Reconcile] is not called, nothing is
    logged, and no [Done] follows the [Get], so the item stays checked
    out. *)
Theorem processNextWorkItem_panics_on_foreign_item (c : Impl R W)
  (repr : string) (q : W) (traceId : string) (elapsed : Duration) :
  Get (WorkQueue c) = GetItem (RawItem repr) q ->
  (exists msg, (processNextWorkItem traceId elapsed c).1 = Panic msg) /\
  (processNextWorkItem traceId elapsed c).2 = setQueue q c.
Proof.
  intros Hget. unfold processNextWorkItem. rewrite Hget. cbn.
  split; [eauto|reflexivity].
Qed.

Lemma handleErr_log (err : error) (key : NamespacedName) (c : Impl R W) :
  attached (logger (handleErr err key c)) = attached (logger c) /\
  exists first rest,
    sink (logger (handleErr err key c))
      = (sink (logger c) ++ first :: rest)%list /\
    level first = ErrorLevel /\ args first = [LErr err] /\
    Forall (fun e => fields e = attached (logger c)) (first :: rest).
Proof.
  unfold handleErr.
  cbn [WorkQueue logf setLogger setQueue setReconciler logger].
  destruct (negb (IsPermanentError (Some err)) && _).
  - split; [reflexivity|].
    exists (mkLogEntry ErrorLevel "Reconcile error" [LErr err]
              (attached (logger c))),
           [mkLogEntry DebugLevel
              "Requeuing key %s due to non-permanent error (depth: %d)"
              [LStr (safeKey key);
               LInt (Len (AddRateLimited (KeyItem key) (WorkQueue c)))]
              (attached (logger c))].
    split; [|split; [reflexivity|split; [reflexivity|repeat constructor]]].
    cbn. rewrite <- app_assoc. reflexivity.
  - split; [reflexivity|].
    exists (mkLogEntry ErrorLevel "Reconcile error" [LErr err]
              (attached (logger c))), [].
    split; [reflexivity|].
    split; [reflexivity|split; [reflexivity|repeat constructor]].
Qed.

(** The entries [handleErr] writes go through the controller's own logger:
    the error entry, and the entry about the requeue after it, carry the
    controller's fields and not the trace identifier and key of the item.
    Those two fields are on the entry that closes [processNextWorkItem],
    which is the last one written; the entries that were in the log are
    kept and the controller's logger keeps its own fields. *)
Theorem processNextWorkItem_log_fields (c : Impl R W)
  (key : NamespacedName) (q : W) (traceId : string) (elapsed : Duration) :
  Get (WorkQueue c) = GetItem (KeyItem key) q ->
  let c' := (processNextWorkItem traceId elapsed c).2 in
  attached (logger c') = attached (logger c) /\
  (exists before closing,
      sink (logger c') = (sink (logger c) ++ before ++ [closing])%list /\
      level closing = InfoLevel /\
      fields closing
        = (attached (logger c)
             ++ [(logging.TraceId, traceId); (logging.Key, safeKey key)])%list) /\
  (forall (err : error) (c0 : Impl R W),
      attached (logger (handleErr err key c0)) = attached (logger c0) /\
      exists first rest,
        sink (logger (handleErr err key c0))
          = (sink (logger c0) ++ first :: rest)%list /\
        level first = ErrorLevel /\ args first = [LErr err] /\
        Forall (fun e => fields e = attached (logger c0)) (first :: rest)).
Proof.
  intros Hget c'. subst c'. split; [|split; [|intros err c0; apply handleErr_log]].
  - unfold processNextWorkItem. rewrite Hget. cbn zeta.
    destruct (Reconcile _ _ _) as [r [err|]]; [|reflexivity].
    match goal with |- context [handleErr err key ?c0] =>
      destruct (handleErr_log err key c0) as (Hatt & _)
    end.
    cbn [snd setQueue logger logWith setLogger attached sink log Logger_With].
    rewrite Hatt. reflexivity.
  - unfold processNextWorkItem. rewrite Hget. cbn zeta.
    destruct (Reconcile _ _ _) as [r [err|]].
    + match goal with |- context [handleErr err key ?c0] =>
        destruct (handleErr_log err key c0)
          as (Hatt & first & rest & Hsink & _)
      end.
      cbn [snd setQueue logger logWith setLogger attached sink log Logger_With].
      rewrite Hatt, Hsink.
      cbn [logger setReconciler logf setLogger setQueue attached sink log] in *.
      exists (mkLogEntry DebugLevel "Processing from queue %s (depth: %d)"
                [LStr (safeKey key); LInt (Len q)] (attached (logger c))
              :: first :: rest).
      eexists. split; [rewrite <- !app_assoc; reflexivity|].
      split; reflexivity.
    + cbn [snd setQueue logger logWith setLogger attached sink log Logger_With
           setReconciler logf WorkQueue].
      exists [mkLogEntry DebugLevel "Processing from queue %s (depth: %d)"
                [LStr (safeKey key); LInt (Len q)] (attached (logger c))].
      eexists. split; [rewrite <- !app_assoc; reflexivity|].
      split; reflexivity.
Qed.

End WorkItem.

(** ** The enqueue functions *)

Section EnqueueFamily.

Context {R W : Type} `{!RateLimitingInterface W}.

(** A value that does not resolve through the accessor is never enqueued by
    the functions that read the object; [EnqueueSentinel], which does not
    read it, adds its key all the same. *)
Theorem enqueue_unresolved (obj : any) (err : error) :
  DeletionHandlingAccessor obj = inr err ->
  rejects (R := R) (W := W) (Enqueue obj) err /\
  (forall after, rejects (R := R) (W := W) (EnqueueAfter obj after) err) /\
  rejects (R := R) (W := W) (EnqueueControllerOf obj) err /\
  (forall namespaceLabel nameLabel,
      rejects (R := R) (W := W) (EnqueueLabelOfNamespaceScopedResource namespaceLabel nameLabel
                 obj) err) /\
  (forall nameLabel,
      rejects (R := R) (W := W) (EnqueueLabelOfClusterScopedResource nameLabel obj) err) /\
  (forall k (c : Impl R W),
      WorkQueue (EnqueueSentinel k obj c) = Add (KeyItem k) (WorkQueue c)).
Proof.
  intros Hacc.
  unfold rejects, Enqueue, EnqueueAfter, EnqueueControllerOf,
    EnqueueLabelOfNamespaceScopedResource,
    EnqueueLabelOfClusterScopedResource.
  rewrite Hacc. cbn.
  repeat split; eauto.
Qed.

End EnqueueFamily.

Section EnqueueByLabel.

Context {R W : Type} `{!RateLimitingInterface W}.

(** With a namespace label given, the handler of
    [EnqueueLabelOfNamespaceScopedResource] adds the key made of the two
    label values, and not the object's own namespace; when either label is
    missing it makes no call on the queue (there is no fall back to the
    object's namespace) and logs one entry at debug level. *)
Theorem EnqueueLabel_namespace_label_cases (c : Impl R (Traced W))
  (namespaceLabel nameLabel : string) (obj : any) (object : metav1.Object) :
  DeletionHandlingAccessor obj = inl object ->
  namespaceLabel <> "" ->
  let labels := metav1.GetLabels object in
  let c' := EnqueueLabelOfNamespaceScopedResource namespaceLabel nameLabel
              obj c in
  (forall ns name,
      labels !! namespaceLabel = Some ns -> labels !! nameLabel = Some name ->
      calls (WorkQueue c')
        = (calls (WorkQueue c) ++ [CAdd (KeyItem (mkNamespacedName ns name))])%list) /\
  (labels !! nameLabel = None \/ labels !! namespaceLabel = None ->
      WorkQueue c' = WorkQueue c /\
      exists entry,
        sink (logger c') = (sink (logger c) ++ [entry])%list /\
        level entry = DebugLevel).
Proof.
  intros Hacc Hne labels c'. subst labels c'.
  unfold EnqueueLabelOfNamespaceScopedResource. rewrite Hacc. cbn zeta.
  split.
  - intros ns name Hns Hname. rewrite Hname.
    rewrite decide_True by exact Hne. rewrite Hns. reflexivity.
  - intros Hmissing.
    destruct (metav1.GetLabels object !! nameLabel) as [name|] eqn:Hname.
    + destruct Hmissing as [[=]|Hns].
      rewrite decide_True by exact Hne. rewrite Hns.
      split; [reflexivity|]. eexists. split; reflexivity.
    + split; [reflexivity|]. eexists. split; reflexivity.
Qed.

(** The handler of [EnqueueLabelOfClusterScopedResource] adds a key without
    namespace, whose string form is the bare value of the name label; an
    object without the label leads to no call on the queue. *)
Theorem EnqueueLabel_cluster_scoped (c : Impl R (Traced W))
  (nameLabel : string) (obj : any) (object : metav1.Object) :
  DeletionHandlingAccessor obj = inl object ->
  let c' := EnqueueLabelOfClusterScopedResource nameLabel obj c in
  (forall name,
      metav1.GetLabels object !! nameLabel = Some name ->
      calls (WorkQueue c')
        = (calls (WorkQueue c) ++ [CAdd (KeyItem (mkNamespacedName "" name))])%list /\
      safeKey (mkNamespacedName "" name) = name) /\
  (metav1.GetLabels object !! nameLabel = None ->
      WorkQueue c' = WorkQueue c).
Proof.
  intros Hacc c'. subst c'.
  unfold EnqueueLabelOfClusterScopedResource. rewrite Hacc. cbn zeta.
  split.
  - intros name ->. split; reflexivity.
  - intros ->. reflexivity.
Qed.

(** ** Filters and handlers *)

(** An object that passes [Filter gvk] has a controlling owner of the kind
    and API version of [gvk], and any event about it that is delivered to
    [HandleAll EnqueueControllerOf] (an update counts for its new object,
    whatever the old one was) adds exactly the key of that owner in the
    object's namespace. *)
Theorem Filter_then_EnqueueControllerOf (gvk : schema.GroupVersionKind)
  (obj : any) :
  Filter gvk obj = true ->
  exists object owner,
    obj = AnObject object /\
    metav1.GetControllerOf object = Some owner /\
    metav1.Controller owner = Some true /\
    metav1.Kind owner = schema.Kind gvk /\
    metav1.APIVersion owner = schema.GroupVersion_String gvk /\
    forall (ev : WatchEvent) (c : Impl R (Traced W)),
      subject ev = obj ->
      calls (WorkQueue (deliver (HandleAll EnqueueControllerOf) ev c))
        = (calls (WorkQueue c)
             ++ [CAdd (KeyItem (mkNamespacedName (metav1.GetNamespace object)
                                                 (metav1.Name owner)))])%list.
Proof.
  unfold Filter. destruct obj as [object| |]; try discriminate.
  destruct (metav1.GetControllerOf object) as [owner|] eqn:Howner;
    [|discriminate].
  intros Hmatch. apply andb_true_iff in Hmatch as [Hv Hk].
  apply bool_decide_eq_true in Hv, Hk.
  exists object, owner. repeat split; try assumption.
  - unfold metav1.GetControllerOf in Howner.
    apply GetControllerOfNoCopy_Some in Howner as (? & ? & _ & Hc & _).
    exact Hc.
  - intros ev c Hev.
    assert (deliver (HandleAll EnqueueControllerOf) ev c
            = EnqueueControllerOf (subject ev) c) as ->
      by (destruct ev; reflexivity).
    rewrite Hev. unfold EnqueueControllerOf. cbn. rewrite Howner. reflexivity.
Qed.

End EnqueueByLabel.

(** The name filters accept objects only: a value passes
    [FilterWithNameAndNamespace] exactly when it is an object of that name
    and namespace, every such value passes [FilterWithName] too, and a
    tombstone passes none of the three filters, even one around an object
    that the accessor of the enqueue functions resolves. *)
Theorem filters_accept_objects_only (namespace name : string) (obj : any) :
  (FilterWithNameAndNamespace namespace name obj = true <->
   exists object, obj = AnObject object /\
                  metav1.GetName object = name /\
                  metav1.GetNamespace object = namespace) /\
  (FilterWithNameAndNamespace namespace name obj = true ->
   FilterWithName name obj = true) /\
  (forall gvk key inner,
      obj = DeletedFinalStateUnknown key inner ->
      FilterWithName name obj = false /\
      FilterWithNameAndNamespace namespace name obj = false /\
      Filter gvk obj = false).
Proof.
  split; [|split].
  - destruct obj as [object| |]; cbn.
    + rewrite andb_true_iff, !bool_decide_eq_true. split.
      * intros [-> ->]. exists object. auto.
      * intros (o & [= <-] & <- & <-). auto.
    + split; [discriminate|intros (? & [=] & _)].
    + split; [discriminate|intros (? & [=] & _)].
  - destruct obj as [object| |]; cbn; try discriminate.
    rewrite andb_true_iff. intros [H _]. exact H.
  - intros gvk key inner ->. repeat split.
Qed.

(** ** Key strings *)

Lemma append_cons (ch : Ascii.ascii) (a b : string) :
  String ch a +:+ b = String ch (a +:+ b).
Proof. reflexivity. Qed.

Lemma noSlash_split (a b x y : string) :
  noSlash a = true -> noSlash b = true ->
  a +:+ "/" +:+ x = b +:+ "/" +:+ y -> a = b /\ x = y.
Proof.
  revert b. induction a as [|ch a IH]; intros [|ch' b] Ha Hb Heq.
  - injection Heq as Heq. auto.
  - rewrite append_cons in Heq. injection Heq as Hch _.
    cbn in Hb. apply andb_true_iff in Hb as [Hb _].
    apply negb_true_iff, bool_decide_eq_false in Hb. destruct Hb.
    rewrite <- Hch. reflexivity.
  - rewrite append_cons in Heq. injection Heq as Hch _.
    cbn in Ha. apply andb_true_iff in Ha as [Ha _].
    apply negb_true_iff, bool_decide_eq_false in Ha. destruct Ha.
    rewrite Hch. reflexivity.
  - rewrite !append_cons in Heq. injection Heq as -> Heq.
    cbn in Ha, Hb. apply andb_true_iff in Ha as [_ Ha].
    apply andb_true_iff in Hb as [_ Hb].
    destruct (IH b Ha Hb Heq) as [-> ->]. auto.
Qed.

Lemma noSlash_joined (a x : string) : noSlash (a +:+ "/" +:+ x) = false.
Proof.
  induction a as [|ch a IH]; [reflexivity|].
  rewrite append_cons. cbn [noSlash]. rewrite IH. apply andb_false_r.
Qed.

(** Keys whose namespaces and names contain no ['/'] have different strings
    when they differ, so [Reconcile] can tell them apart; without that
    condition two different keys can have the same string. *)
Theorem safeKey_injective_without_slash :
  (forall k1 k2 : NamespacedName,
      noSlash (Namespace k1) = true -> noSlash (Name k1) = true ->
      noSlash (Namespace k2) = true -> noSlash (Name k2) = true ->
      safeKey k1 = safeKey k2 -> k1 = k2) /\
  (exists k1 k2 : NamespacedName, k1 <> k2 /\ safeKey k1 = safeKey k2).
Proof.
  split.
  - intros [ns1 n1] [ns2 n2]. cbn [Namespace Name].
    intros Hns1 Hn1 Hns2 Hn2. unfold safeKey, NamespacedName_String.
    cbn [Namespace Name].
    destruct (decide (ns1 = "")) as [->|H1], (decide (ns2 = "")) as [->|H2].
    + intros ->. reflexivity.
    + intros ->. rewrite noSlash_joined in Hn1. discriminate.
    + intros <-. rewrite noSlash_joined in Hn2. discriminate.
    + intros Heq. destruct (noSlash_split _ _ _ _ Hns1 Hns2 Heq) as [-> ->].
      reflexivity.
  - exists (mkNamespacedName "" "a/b"), (mkNamespacedName "a" "b").
    split; [discriminate|reflexivity].
Qed.

Lemma safeKey_witness :
  mkNamespacedName "prod" "web" = mkNamespacedName "prod" "web".
Proof.
  destruct safeKey_injective_without_slash as [Hinj _].
  apply Hinj; reflexivity.
Defined.

(** ** The event recorder of a context *)

Lemma Value_erKey_app (outer ctx : Context) :
  (forall er, erKey er ∉ outer) ->
  Value_erKey (outer ++ ctx)%list = Value_erKey ctx.
Proof.
  induction outer as [|b outer IH]; intros Hno; [reflexivity|].
  destruct b; simpl;
    try (apply IH; intros e Hin; apply (Hno e); right; exact Hin).
  exfalso. apply (Hno er). left.
Qed.

(** [GetEventRecorder] returns what the innermost [WithEventRecorder]
    attached, through any other values attached later, and nil when nothing
    was attached; attaching nil hides a recorder attached before; and the
    recorder and the resync period do not disturb each other. *)
Theorem event_recorder_round_trip :
  (forall (outer ctx : Context) er,
      (forall er', erKey er' ∉ outer) ->
      GetEventRecorder (outer ++ WithEventRecorder ctx er)%list = er) /\
  (forall ctx : Context,
      (forall er, erKey er ∉ ctx) -> GetEventRecorder ctx = None) /\
  (forall ctx er,
      GetEventRecorder (WithEventRecorder (WithEventRecorder ctx er) None)
        = None) /\
  (forall ctx d er,
      GetEventRecorder (WithResyncPeriod ctx d) = GetEventRecorder ctx /\
      GetResyncPeriod (WithEventRecorder ctx er) = GetResyncPeriod ctx).
Proof.
  split; [|split; [|split]].
  - intros outer ctx er Hno. unfold GetEventRecorder.
    rewrite Value_erKey_app by exact Hno. reflexivity.
  - intros ctx Hno. unfold GetEventRecorder.
    rewrite <- (app_nil_r ctx). rewrite Value_erKey_app by exact Hno.
    reflexivity.
  - reflexivity.
  - intros ctx d er. split; reflexivity.
Qed.

Lemma event_recorder_witness :
  GetEventRecorder
    (WithResyncPeriod
       (WithEventRecorder Background (Some (mkEventRecorder "events")))
       5000)
  = Some (mkEventRecorder "events").
Proof.
  destruct event_recorder_round_trip as [Hthrough _].
  apply (Hthrough [resyncPeriodKey 5000] Background).
  intros er' Hin. apply list_elem_of_singleton in Hin. discriminate.
Defined.

(** ** The queue calls of a resync *)

Section ResyncQueue.

Context {R W : Type} `{!RateLimitingInterface W}.

(** The delayed addition a call [EnqueueAfter obj after] makes, if any. *)
Local Abbreviation addition p :=
  (match DeletionHandlingAccessor (fst p) with
   | inl object =>
       Some (CAddAfter
               (KeyItem (mkNamespacedName (metav1.GetNamespace object)
                                          (metav1.GetName object)))
               (snd p))
   | inr _ => None
   end).

Lemma foldl_EnqueueAfter_trace (ps : list (any * Duration))
  (c : Impl R (Traced W)) :
  calls (WorkQueue (foldl (fun c p => EnqueueAfter p.1 p.2 c) c ps))
    = (calls (WorkQueue c) ++ omap (fun p => addition p) ps)%list.
Proof.
  revert c. induction ps as [|p ps IH]; intros c; cbn [foldl omap].
  - rewrite app_nil_r. reflexivity.
  - rewrite IH, EnqueueAfter_calls. change (fst p) with (p.1).
    destruct (DeletionHandlingAccessor p.1) eqn:Hacc; cbn; rewrite ?Hacc.
    + rewrite <- app_assoc. reflexivity.
    + rewrite app_nil_r. reflexivity.
Qed.

(** On an open queue the only calls a resync makes are delayed additions:
    one [AddAfter] for each listed object that passes the filter and
    resolves, in the order of the listing, under the object's own key; and it
    draws one random sample for each object that passes the filter, none for
    the others. *)
Theorem FilteredGlobalResync_queue_calls (f : any -> bool)
  (si : SharedInformer) (rng : wait.Rand) (c : Impl R (Traced W)) :
  ShuttingDown (WorkQueue c) = false ->
  calls (WorkQueue (FilteredGlobalResync f si rng c).1)
    = (calls (WorkQueue c)
         ++ omap (fun p => addition p) (resyncCalls f si rng))%list /\
  wait.pos (FilteredGlobalResync f si rng c).2
    = (wait.pos rng
       + length (filter (fun obj => f obj = true) (GetStore_List si)))%nat.
Proof.
  intros Hopen. rewrite FilteredGlobalResync_open by exact Hopen. cbn [fst snd].
  split; [apply foldl_EnqueueAfter_trace|].
  cbn. rewrite <- (resyncCalls_objects f si rng), length_fmap. reflexivity.
Qed.

End ResyncQueue.

Lemma EnqueueAfter_one_entry {R W : Type} `{!RateLimitingInterface W}
  (obj : any) (d : Duration) (c : Impl R W) :
  length (sink (logger (EnqueueAfter obj d c)))
    = S (length (sink (logger c))).
Proof.
  unfold EnqueueAfter. destruct (DeletionHandlingAccessor obj); cbn;
    rewrite length_app; cbn; lia.
Qed.

Lemma foldl_EnqueueAfter_entries {R W : Type} `{!RateLimitingInterface W}
  (ps : list (any * Duration)) (c : Impl R W) :
  length (sink (logger (foldl (fun c p => EnqueueAfter p.1 p.2 c) c ps)))
    = (length (sink (logger c)) + length ps)%nat.
Proof.
  revert c. induction ps as [|p ps IH]; intros c; cbn [foldl length]; [lia|].
  rewrite IH, EnqueueAfter_one_entry. lia.
Qed.

Section ResyncObserved.

Context {R W : Type} `{!RateLimitingInterface W}.

Lemma delayedAddition_all (ps : list (any * Duration)) :
  (forall p, p ∈ ps -> exists object, DeletionHandlingAccessor p.1 = inl object) ->
  length (omap delayedAddition ps) = length ps /\
  Forall (fun call => exists item d, call = CAddAfter item d)
         (omap delayedAddition ps).
Proof.
  induction ps as [|p ps IH]; intros Hall; [split; [reflexivity|constructor]|].
  destruct IH as [IHl IHf]; [intros q Hq; apply Hall; right; exact Hq|].
  destruct (Hall p) as [object Hobj]; [left|].
  assert (delayedAddition p
          = Some (CAddAfter
                    (KeyItem (mkNamespacedName (metav1.GetNamespace object)
                                               (metav1.GetName object)))
                    p.2)) as Hadd.
  { unfold delayedAddition. change (fst p) with (p.1). rewrite Hobj.
    reflexivity. }
  cbn [omap list_omap]. rewrite Hadd. cbn [length].
  split; [f_equal; exact IHl|]. constructor; [eauto|exact IHf].
Qed.

Lemma filter_always (lst : list any) :
  filter (fun obj => (fun _ : any => true) obj = true) lst = lst.
Proof.
  induction lst as [|x l IH]; [reflexivity|].
  rewrite filter_cons, decide_True by reflexivity. f_equal. exact IH.
Qed.

(** What a resync on an open queue can be seen to do, for any filter. *)
Lemma resync_observed (f : any -> bool) (si : SharedInformer)
  (rng : wait.Rand) (c : Impl R (Traced W)) :
  ShuttingDown (WorkQueue c) = false ->
  let passing := filter (fun obj => f obj = true) (GetStore_List si) in
  let c' := (FilteredGlobalResync f si rng c).1 in
  c' = foldl (fun c p => EnqueueAfter p.1 p.2 c) c (resyncCalls f si rng) /\
  (resyncCalls f si rng).*1 = passing /\
  calls (WorkQueue c')
    = (calls (WorkQueue c) ++ omap delayedAddition (resyncCalls f si rng))%list /\
  length (sink (logger c'))
    = (length (sink (logger c)) + length passing)%nat /\
  ((forall obj, obj ∈ passing ->
      exists object, DeletionHandlingAccessor obj = inl object) ->
   exists added,
     calls (WorkQueue c') = (calls (WorkQueue c) ++ added)%list /\
     length added = length passing /\
     Forall (fun call => exists item d, call = CAddAfter item d) added).
Proof.
  intros Hopen passing c'. subst passing c'.
  rewrite FilteredGlobalResync_open by exact Hopen. cbn [fst].
  pose proof (resyncCalls_objects f si rng) as Hobjs.
  assert (length (resyncCalls f si rng)
          = length (filter (fun obj => f obj = true) (GetStore_List si)))
    as Hlen by (rewrite <- Hobjs, length_fmap; reflexivity).
  split; [reflexivity|]. split; [exact Hobjs|].
  split; [apply foldl_EnqueueAfter_trace|].
  split; [rewrite foldl_EnqueueAfter_entries, Hlen; reflexivity|].
  intros Hall. exists (omap delayedAddition (resyncCalls f si rng)).
  split; [apply foldl_EnqueueAfter_trace|].
  destruct (delayedAddition_all (resyncCalls f si rng)) as [Hl Hf].
  - intros p Hp. apply Hall. rewrite <- Hobjs.
    apply list_elem_of_fmap. exists p. auto.
  - split; [rewrite Hl; exact Hlen|exact Hf].
Qed.

(** C4: on a recording queue.  When the queue is not shutting down,
    [FilteredGlobalResync] is the sequence of calls [EnqueueAfter obj delay],
    one for each listed object that satisfies [f], in the order of the
    listing, and each of these calls can be observed: it writes one log
    entry, and it makes one [AddAfter] call on the queue when the object
    resolves, so that with objects that all resolve the queue receives
    exactly as many [AddAfter] calls as objects satisfy [f], and nothing
    else.  [GlobalResync] does so for each of the [N] listed objects.  When
    the queue is shutting down neither the controller (queue calls and log
    included) nor the random source changes. *)
Theorem C4_resync_calls (f : any -> bool) (si : SharedInformer)
  (rng : wait.Rand) (c : Impl R (Traced W)) :
  let lst := GetStore_List si in
  let passing := filter (fun obj => f obj = true) lst in
  (ShuttingDown (WorkQueue c) = false ->
     let c' := (FilteredGlobalResync f si rng c).1 in
     c' = foldl (fun c p => EnqueueAfter p.1 p.2 c) c (resyncCalls f si rng) /\
     (resyncCalls f si rng).*1 = passing /\
     calls (WorkQueue c')
       = (calls (WorkQueue c)
            ++ omap delayedAddition (resyncCalls f si rng))%list /\
     length (sink (logger c'))
       = (length (sink (logger c)) + length passing)%nat /\
     ((forall obj, obj ∈ passing ->
         exists object, DeletionHandlingAccessor obj = inl object) ->
      exists added,
        calls (WorkQueue c') = (calls (WorkQueue c) ++ added)%list /\
        length added = length passing /\
        Forall (fun call => exists item d, call = CAddAfter item d) added)) /\
  (ShuttingDown (WorkQueue c) = false ->
     let c' := (GlobalResync si rng c).1 in
     (resyncCalls (fun _ => true) si rng).*1 = lst /\
     calls (WorkQueue c')
       = (calls (WorkQueue c)
            ++ omap delayedAddition (resyncCalls (fun _ => true) si rng))%list /\
     length (sink (logger c'))
       = (length (sink (logger c)) + length lst)%nat /\
     ((forall obj, obj ∈ lst ->
         exists object, DeletionHandlingAccessor obj = inl object) ->
      exists added,
        calls (WorkQueue c') = (calls (WorkQueue c) ++ added)%list /\
        length added = length lst /\
        Forall (fun call => exists item d, call = CAddAfter item d) added)) /\
  (ShuttingDown (WorkQueue c) = true ->
     FilteredGlobalResync f si rng c = (c, rng) /\
     GlobalResync si rng c = (c, rng)).
Proof.
  intros lst passing. split; [|split].
  - intros Hopen. apply (resync_observed f si rng c Hopen).
  - intros Hopen c'. subst c' lst. unfold GlobalResync. cbn zeta.
    pose proof (resync_observed (fun _ => true) si rng c Hopen) as Hobs.
    cbn zeta in Hobs. rewrite filter_always in Hobs.
    destruct Hobs as (_ & Hobjs & Hcalls & Hlog & Hall).
    split; [exact Hobjs|]. split; [exact Hcalls|]. split; [exact Hlog|].
    exact Hall.
  - intros Hshut. unfold GlobalResync, FilteredGlobalResync.
    rewrite Hshut. split; reflexivity.
Qed.

End ResyncObserved.

Lemma C4_witness :
  calls (WorkQueue
           (FilteredGlobalResync (FilterWithName "web-7f9c-abcde")
              (mkSharedInformer
                 [AnObject Sample.configMap; AnObject Sample.pod])
              Sample.quarters Sample.controller).1)
    = [CAddAfter (KeyItem (mkNamespacedName "prod" "web-7f9c-abcde")) Second] /\
  length (sink (logger
           (FilteredGlobalResync (FilterWithName "web-7f9c-abcde")
              (mkSharedInformer
                 [AnObject Sample.configMap; AnObject Sample.pod])
              Sample.quarters Sample.controller).1)) = 1%nat.
Proof.
  destruct (C4_resync_calls (R := Spy) (FilterWithName "web-7f9c-abcde")
              (mkSharedInformer [AnObject Sample.configMap; AnObject Sample.pod])
              Sample.quarters Sample.controller) as [Hopen _].
  destruct Hopen as (_ & _ & Hcalls & Hlog & _); [reflexivity|].
  split.
  - rewrite Hcalls. vm_compute. reflexivity.
  - rewrite Hlog. vm_compute. reflexivity.
Defined.

Lemma FilteredGlobalResync_queue_calls_witness :
  calls (WorkQueue
           (FilteredGlobalResync (FilterWithName "web-7f9c-abcde")
              (mkSharedInformer
                 [AnObject Sample.configMap; AnOther "x"; AnObject Sample.pod])
              Sample.quarters Sample.controller).1)
    = [CAddAfter (KeyItem (mkNamespacedName "prod" "web-7f9c-abcde")) Second].
Proof.
  destruct (FilteredGlobalResync_queue_calls (R := Spy)
              (FilterWithName "web-7f9c-abcde")
              (mkSharedInformer
                 [AnObject Sample.configMap; AnOther "x"; AnObject Sample.pod])
              Sample.quarters Sample.controller) as [Hcalls _];
    [reflexivity|].
  rewrite Hcalls. vm_compute. reflexivity.
Defined.

(** ** More on the sync barrier *)

Lemma poll_synced (fuel : nat) (stopCh : StopCh) (cacheSync : nat -> bool)
  (now T : nat) :
  (now <= T)%nat -> (T - now < fuel)%nat -> cacheSync T = true ->
  (forall t, (t <= T)%nat -> closed stopCh t = false) ->
  exists t, (now <= t <= T)%nat /\
            cache.poll fuel stopCh cacheSync now = Some (true, t).
Proof.
  revert now. induction fuel as [|fuel IH]; intros now Hnow Hfuel HT Hopen;
    [lia|].
  cbn [cache.poll]. rewrite Hopen by exact Hnow.
  destruct (cacheSync now) eqn:Hs; [exists now; split; [lia|reflexivity]|].
  assert (now < T)%nat.
  { destruct (decide (now = T)) as [->|]; [congruence|lia]. }
  destruct (IH (S now)) as (t & Ht & Hres); try assumption; try lia.
  exists t. split; [lia|exact Hres].
Qed.

Lemma WaitForCacheSync_synced (fuel : nat) (stopCh : StopCh)
  (cacheSync : nat -> bool) (now T : nat) :
  (now <= T)%nat -> (T - now <= fuel)%nat -> cacheSync T = true ->
  (forall t, (t <= T)%nat -> closed stopCh t = false) ->
  exists t, (now <= t <= T)%nat /\
            cache.WaitForCacheSync fuel stopCh cacheSync now = Some (true, t).
Proof.
  intros Hnow Hfuel HT Hopen. unfold cache.WaitForCacheSync.
  destruct (cacheSync now) eqn:Hs; [exists now; split; [lia|reflexivity]|].
  rewrite Hopen by exact Hnow.
  assert (now < T)%nat.
  { destruct (decide (now = T)) as [->|]; [congruence|lia]. }
  destruct (poll_synced fuel stopCh cacheSync (S now) T)
    as (t & Ht & Hres); try assumption; try lia.
  exists t. split; [lia|exact Hres].
Qed.

(** If every informer is synced by the instant [T] and stays synced, and the
    stop channel is still open at [T], then with fuel for the polls up to
    [T] [StartInformers] returns nil, no later than [T].  And if every
    informer is synced from the start, it returns nil at once, whatever the
    stop channel, even one that is closed already: the first check of each
    wait comes before the look at the stop channel. *)
Theorem StartInformers_succeeds (informers : list Informer) :
  (forall (fuel T : nat) (stopCh : StopCh),
      (T < fuel)%nat ->
      (forall informer, informer ∈ informers ->
         staysSynced informer /\ HasSynced informer T = true) ->
      (forall t, (t <= T)%nat -> closed stopCh t = false) ->
      exists t, (t <= T)%nat /\
                StartInformers fuel stopCh informers = Some (None, t)) /\
  (forall (fuel : nat) (stopCh : StopCh),
      (forall informer, informer ∈ informers ->
         HasSynced informer 0 = true) ->
      StartInformers fuel stopCh informers = Some (None, 0%nat)).
Proof.
  split.
  - intros fuel T stopCh Hfuel Hall Hopen. unfold StartInformers.
    assert (forall i now, (now <= T)%nat ->
              exists t, (now <= t <= T)%nat /\
                        waitForSync fuel stopCh informers i now
                        = Some (None, t))
      as Hgen; [|destruct (Hgen 0 0)%nat as (t & Ht & Hres); [lia|];
                 exists t; split; [lia|exact Hres]].
    induction informers as [|informer rest IH]; intros i now Hnow.
    + exists now. split; [lia|reflexivity].
    + cbn [waitForSync].
      destruct (Hall informer) as [_ Hs]; [left|].
      destruct (WaitForCacheSync_synced fuel stopCh (HasSynced informer) now T)
        as (t1 & Ht1 & ->); try assumption; try lia.
      destruct (IH (fun inf Hin => Hall inf (list_elem_of_further _ _ _ Hin))
                   (S i) t1) as (t & Ht & Hres); [lia|].
      exists t. split; [lia|exact Hres].
  - intros fuel stopCh Hall. unfold StartInformers. generalize 0%nat at 1.
    induction informers as [|informer rest IH]; intros i; [reflexivity|].
    cbn [waitForSync]. unfold cache.WaitForCacheSync.
    rewrite (Hall informer) by left.
    apply IH. intros inf Hin. apply Hall. right. exact Hin.
Qed.

Lemma StartInformers_succeeds_witness :
  (exists t, (t <= 3)%nat /\
             StartInformers 4 (Some 4%nat)
               [Sample.syncsAt 3; Sample.syncsAt 1] = Some (None, t)) /\
  StartInformers 0 (Some 0%nat) [Sample.syncsAt 0; Sample.syncsAt 0]
    = Some (None, 0%nat).
Proof.
  split.
  - apply (StartInformers_succeeds [Sample.syncsAt 3; Sample.syncsAt 1]).
    + lia.
    + intros informer Hin. split.
      * intros t t' Hle.
        apply elem_of_cons in Hin as [->|Hin];
          [|apply list_elem_of_singleton in Hin as ->]; cbn;
          rewrite !bool_decide_eq_true; lia.
      * apply elem_of_cons in Hin as [->|Hin];
          [|apply list_elem_of_singleton in Hin as ->]; reflexivity.
    + intros t Ht. cbn. apply bool_decide_eq_false. lia.
  - apply (StartInformers_succeeds [Sample.syncsAt 0; Sample.syncsAt 0]).
    intros informer Hin.
    apply elem_of_cons in Hin as [->|Hin];
      [|apply list_elem_of_singleton in Hin as ->]; reflexivity.
Defined.



(** The informer named by the error can be synced by the time of the
    return: synced at the very instant of the stop is too late. *)
Example StartInformers_stop_wins :
  StartInformers 10 (Some 3%nat) [Sample.syncsAt 3; Sample.syncsAt 1]
    = Some (Some (syncError 0), 3%nat).
Proof. vm_compute. reflexivity. Qed.

(** ** Draining the queue after shutdown *)

Section Drain.

#[local] Set Warnings "-clear-no-such-hyp".

Lemma processNextWorkItem_draining (c : Impl Spy WorkQ.t)
  (key : NamespacedName) (rest : list Item) (traceId : string)
  (elapsed : Duration) :
  WorkQ.queue (WorkQueue c) = KeyItem key :: rest ->
  WorkQ.shuttingDown (WorkQueue c) = true ->
  exists c',
    processNextWorkItem traceId elapsed c = (Return true, c') /\
    WorkQ.queue (WorkQueue c') = rest /\
    WorkQ.shuttingDown (WorkQueue c') = true /\
    WorkQ.waiting (WorkQueue c') = WorkQ.waiting (WorkQueue c) /\
    WorkQ.processing (WorkQueue c') = WorkQ.processing (WorkQueue c) ∖ {[KeyItem key]} /\
    seen (Reconciler c') = (seen (Reconciler c) ++ [safeKey key])%list /\
    answers (Reconciler c') = answers (Reconciler c).
Proof.
  destruct c as [r [queue dirty processing waiting failures now sd backoff] l].
  cbn [WorkQueue WorkQ.queue WorkQ.shuttingDown Reconciler].
  intros -> ->. unfold processNextWorkItem.
  cbn [Get WorkQ_queue WorkQ.Get WorkQueue WorkQ.queue].
  cbn zeta. cbn [Reconcile Spy_reconciler Reconciler setQueue logf setLogger].
  assert (forall q : WorkQ.t, KeyItem key ∉ WorkQ.dirty q ->
            WorkQ.Done (KeyItem key) q
            = WorkQ.mk (WorkQ.queue q) (WorkQ.dirty q)
                (WorkQ.processing q ∖ {[KeyItem key]}) (WorkQ.waiting q)
                (WorkQ.failures q) (WorkQ.now q) (WorkQ.shuttingDown q)
                (WorkQ.backoff q)) as Hdone.
  { intros q Hq. unfold WorkQ.Done. rewrite decide_False by exact Hq.
    reflexivity. }
  destruct (answers r (safeKey key)) as [err|].
  - unfold handleErr.
    cbn [WorkQueue setReconciler setQueue logf setLogger ShuttingDown
         WorkQ_queue WorkQ.ShuttingDown WorkQ.shuttingDown].
    rewrite andb_false_r.
    cbn [logWith WorkQueue setLogger setQueue Forget WorkQ_queue WorkQ.Forget
         Done].
    rewrite Hdone by (cbn; set_solver).
    eexists. split; [reflexivity|]. cbn.
    repeat split. set_solver.
  - cbn [logWith WorkQueue setLogger setQueue setReconciler Forget
         WorkQ_queue WorkQ.Forget Done].
    rewrite Hdone by (cbn; set_solver).
    eexists. split; [reflexivity|]. cbn.
    repeat split. set_solver.
Qed.

(** A worker that runs on a queue that has been shut down, with only keys
    left in it, calls [Reconcile] once for each of them, in the order of the
    queue, and then leaves its loop; the queue is empty then and no retry
    has been scheduled, whatever errors [Reconcile] returned. *)
Theorem workerLoop_drains (keys : list NamespacedName)
  (ids : list (string * Duration)) (c : Impl Spy WorkQ.t) :
  WorkQ.queue (WorkQueue c) = map KeyItem keys ->
  WorkQ.shuttingDown (WorkQueue c) = true ->
  (length keys < length ids)%nat ->
  exists c',
    workerLoop ids c = (LoopExited, length keys, c') /\
    seen (Reconciler c')
      = (seen (Reconciler c) ++ map safeKey keys)%list /\
    WorkQ.queue (WorkQueue c') = [] /\
    WorkQ.waiting (WorkQueue c') = WorkQ.waiting (WorkQueue c).
Proof.
  revert ids c. induction keys as [|key keys IH]; intros ids c Hq Hsd Hlen.
  - destruct ids as [|[traceId elapsed] ids]; [cbn in Hlen; lia|].
    exists c. cbn [workerLoop]. unfold processNextWorkItem.
    cbn [Get WorkQ_queue]. unfold WorkQ.Get. cbn in Hq. rewrite Hq, Hsd.
    destruct c as [r q l]. cbn. rewrite app_nil_r.
    repeat split.
  - destruct ids as [|[traceId elapsed] ids]; [cbn in Hlen; lia|].
    destruct (processNextWorkItem_draining c key (map KeyItem keys)
                traceId elapsed Hq Hsd)
      as (c1 & Hstep & Hq1 & Hsd1 & Hw1 & _ & Hseen1 & _).
    destruct (IH ids c1 Hq1 Hsd1) as (c' & Hloop & Hseen & Hempty & Hw);
      [cbn in Hlen; lia|].
    exists c'. cbn [workerLoop]. rewrite Hstep, Hloop.
    repeat split.
    + rewrite Hseen, Hseen1, <- app_assoc. reflexivity.
    + exact Hempty.
    + rewrite Hw, Hw1. reflexivity.
Qed.

End Drain.

Lemma workerLoop_drains_witness :
  exists c',
    workerLoop [("t1", 10); ("t2", 20); ("t3", 30)] Fixture.drainingQueue
      = (LoopExited, 2%nat, c') /\
    seen (Reconciler c') = ["prod/web"; "prod/ok"].
Proof.
  destruct (workerLoop_drains
              [mkNamespacedName "prod" "web"; mkNamespacedName "prod" "ok"]
              [("t1", 10); ("t2", 20); ("t3", 30)] Fixture.drainingQueue)
    as (c' & Hloop & Hseen & _).
  - vm_compute. reflexivity.
  - reflexivity.
  - cbn. lia.
  - exists c'. split; [exact Hloop|exact Hseen].
Defined.

(** ** The worker loop *)

Section Loop.

Context {W : Type} `{!RateLimitingInterface W}.

Lemma doneCalls_app (xs ys : list Call) :
  doneCalls (xs ++ ys) = (doneCalls xs + doneCalls ys)%nat.
Proof.
  induction xs as [|[] xs IH]; cbn; rewrite ?IH; reflexivity.
Qed.

Lemma processNextWorkItem_counts (c : Impl Spy (Traced W))
  (traceId : string) (elapsed : Duration) :
  let out := processNextWorkItem traceId elapsed c in
  let n := match out.1 with Return true => 1%nat | _ => 0%nat end in
  length (seen (Reconciler out.2)) = (length (seen (Reconciler c)) + n)%nat /\
  doneCalls (calls (WorkQueue out.2))
    = (doneCalls (calls (WorkQueue c)) + n)%nat.
Proof.
  cbn zeta. unfold processNextWorkItem. cbn [Get Traced_queue].
  destruct (Get (inner (WorkQueue c))) as [[key|repr] q|q|].
  - cbn zeta. cbn [Reconcile Spy_reconciler].
    destruct (answers _ _) as [err|].
    + cbn -[handleErr]. rewrite handleErr_Reconciler, handleErr_calls.
      cbn -[doneCalls]. rewrite ?length_app, ?doneCalls_app.
      destruct (retried _ _); cbn; split; lia.
    + cbn -[doneCalls]. rewrite ?length_app, ?doneCalls_app. cbn. split; lia.
  - cbn -[doneCalls]. rewrite ?doneCalls_app. cbn. split; lia.
  - cbn -[doneCalls]. rewrite ?doneCalls_app. cbn. split; lia.
  - cbn. split; lia.
Qed.

(** However the loop of a worker ends, it has given back every item it
    reconciled: the number of calls to [Reconcile] and the number of [Done]
    calls it made both equal the number of items it processed. *)
Theorem workerLoop_gives_back (ids : list (string * Duration))
  (c : Impl Spy (Traced W)) :
  let '(_, n, c') := workerLoop ids c in
  length (seen (Reconciler c')) = (length (seen (Reconciler c)) + n)%nat /\
  doneCalls (calls (WorkQueue c'))
    = (doneCalls (calls (WorkQueue c)) + n)%nat.
Proof.
  revert c. induction ids as [|[traceId elapsed] ids IH]; intros c.
  - cbn. split; lia.
  - cbn [workerLoop].
    pose proof (processNextWorkItem_counts c traceId elapsed) as Hstep.
    cbn zeta in Hstep.
    destruct (processNextWorkItem traceId elapsed c) as [[[|]|msg|] c1];
      cbn [fst snd] in Hstep.
    + specialize (IH c1). destruct (workerLoop ids c1) as [[e n] c'].
      destruct IH as [IHs IHd], Hstep as [Hs Hd]. split; lia.
    + destruct Hstep as [Hs Hd]. split; lia.
    + destruct Hstep as [Hs Hd]. split; lia.
    + destruct Hstep as [Hs Hd]. split; lia.
Qed.

End Loop.

(** ** The bind handler of the scheduler extender *)

Section BindProperties.

Import scheduler.

Variable getPodLocalVolumePVCNames : Pod -> list string.

Lemma preallocate_lookup (pvcNames : list string) (m : gmap string string)
  (k : string) :
  preallocate pvcNames m !! k
    = if decide (k ∈ pvcNames) then Some "" else m !! k.
Proof.
  unfold preallocate. revert m.
  induction pvcNames as [|v rest IH]; intros m; cbn [foldl].
  - rewrite decide_False by apply not_elem_of_nil. reflexivity.
  - rewrite IH. destruct (decide (k ∈ rest)) as [Hin|Hnin].
    + rewrite decide_True by (right; exact Hin). reflexivity.
    + destruct (decide (k = v)) as [->|Hne].
      * rewrite decide_True by left. apply lookup_insert_eq.
      * rewrite decide_False
          by (intros [->|Hin]%elem_of_cons; [apply Hne; reflexivity|
                                             apply Hnin; exact Hin]).
        apply lookup_insert_ne. congruence.
Qed.

(** When the pod is not in the pod lister, or the node has no local volume
    in the default namespace, [BindHandler] answers with the text of the
    lister's error and sends nothing to the API server: no status update and
    no binding. *)
Theorem BindHandler_lookup_failure {S : Type} `{!Clientset S}
  (args : ExtenderBindingArgs) (lvs : LocalVolumeScheduler S) (err : error) :
  podLister lvs (PodNamespace args) (PodName args) = inr err \/
  ((exists pod, podLister lvs (PodNamespace args) (PodName args) = inl pod) /\
   localVolumeLister lvs NamespaceDefault (Node args) = inr err) ->
  bind getPodLocalVolumePVCNames args lvs = (lvs, Some err) /\
  BindHandler getPodLocalVolumePVCNames args lvs
    = (lvs, mkExtenderBindingResult (Error err)).
Proof.
  unfold BindHandler, bind.
  intros [Hpod | [[pod Hpod] Hlv]]; rewrite Hpod; [|rewrite Hlv];
    split; reflexivity.
Qed.

(** When both lookups succeed, [bind] sends one status update, for the
    node's local volume in the default namespace whatever the pod's
    namespace is; the volume sent is the cached one with every claim of the
    pod pre-allocated with an empty value (a value already recorded for such
    a claim is overwritten) and every other entry kept; a nil map counts as
    empty.  The error of the update is the result. *)
Theorem bind_sends_preallocation (args : ExtenderBindingArgs)
  (lvs : LocalVolumeScheduler FakeClientset) (pod : Pod) (lv : LocalVolume) :
  podLister lvs (PodNamespace args) (PodName args) = inl pod ->
  localVolumeLister lvs NamespaceDefault (Node args) = inl lv ->
  exists sent m,
    requests (client (bind getPodLocalVolumePVCNames args lvs).1)
      = (requests (client lvs) ++ [UpdateStatusRequest "default" sent])%list /\
    (bind getPodLocalVolumePVCNames args lvs).2 = updateOutcome (client lvs) /\
    LVName sent = LVName lv /\ LVRest sent = LVRest lv /\
    PreAllocated sent = Some m /\
    forall claim,
      m !! claim
        = if decide (claim ∈ getPodLocalVolumePVCNames pod) then Some ""
          else default ∅ (PreAllocated lv) !! claim.
Proof.
  intros Hpod Hlv. unfold bind, DeepCopy. rewrite Hpod, Hlv. cbn.
  eexists _, _. repeat split.
  intros claim. rewrite preallocate_lookup.
  destruct (PreAllocated lv); reflexivity.
Qed.

(** The binding is requested only after a status update that succeeded:
    [BindHandler] sends the update first and, if that fails, answers with its
    error and sends no binding; otherwise it sends one binding of the pod
    (namespace, name and UID of the request) to the node, and answers with
    the error of that request, or with an empty error and one log entry when
    it succeeds. *)
Theorem BindHandler_requests (args : ExtenderBindingArgs)
  (lvs : LocalVolumeScheduler FakeClientset) (pod : Pod) (lv : LocalVolume) :
  podLister lvs (PodNamespace args) (PodName args) = inl pod ->
  localVolumeLister lvs NamespaceDefault (Node args) = inl lv ->
  let out := BindHandler getPodLocalVolumePVCNames args lvs in
  let binding := BindRequest (PodNamespace args)
                   (mkBinding (PodNamespace args) (PodName args)
                              (PodUID args) "Node" (Node args)) in
  exists sent,
    match updateOutcome (client lvs), bindOutcome (client lvs) with
    | Some err, _ =>
        requests (client out.1)
          = (requests (client lvs) ++ [UpdateStatusRequest "default" sent])%list /\
        ResultError out.2 = Error err /\ slog out.1 = slog lvs
    | None, Some err =>
        requests (client out.1)
          = (requests (client lvs)
               ++ [UpdateStatusRequest "default" sent; binding])%list /\
        ResultError out.2 = Error err /\ slog out.1 = slog lvs
    | None, None =>
        requests (client out.1)
          = (requests (client lvs)
               ++ [UpdateStatusRequest "default" sent; binding])%list /\
        ResultError out.2 = "" /\
        length (sink (slog out.1)) = S (length (sink (slog lvs)))
    end.
Proof.
  intros Hpod Hlv out binding. subst out binding.
  unfold BindHandler, bind. rewrite Hpod, Hlv. cbn.
  eexists.
  destruct (updateOutcome (client lvs)) as [err|]; cbn.
  - repeat split.
  - destruct (bindOutcome (client lvs)) as [err|]; cbn.
    + rewrite <- app_assoc. repeat split.
    + rewrite <- app_assoc, length_app. cbn. repeat split. lia.
Qed.

(** Pre-allocating is idempotent: once the volume the lister returns is the
    one a bind has sent, the same bind request sends that very volume
    again. *)
Theorem bind_idempotent (args : ExtenderBindingArgs)
  (lvs lvs' : LocalVolumeScheduler FakeClientset) (pod : Pod)
  (lv sent : LocalVolume) :
  podLister lvs (PodNamespace args) (PodName args) = inl pod ->
  localVolumeLister lvs NamespaceDefault (Node args) = inl lv ->
  requests (client (bind getPodLocalVolumePVCNames args lvs).1)
    = (requests (client lvs) ++ [UpdateStatusRequest "default" sent])%list ->
  podLister lvs' (PodNamespace args) (PodName args) = inl pod ->
  localVolumeLister lvs' NamespaceDefault (Node args) = inl sent ->
  requests (client (bind getPodLocalVolumePVCNames args lvs').1)
    = (requests (client lvs') ++ [UpdateStatusRequest "default" sent])%list.
Proof.
  intros Hpod Hlv Hsent Hpod' Hlv'. unfold bind, DeepCopy in *.
  rewrite Hpod, Hlv in Hsent. rewrite Hpod', Hlv'. cbn in *.
  apply app_inv_head in Hsent. injection Hsent as <-. cbn.
  assert (forall names (m : gmap string string),
            preallocate names (preallocate names m) = preallocate names m)
    as Hidem.
  { intros names m. apply map_eq. intros k.
    rewrite !preallocate_lookup. case_decide; reflexivity. }
  rewrite Hidem. reflexivity.
Qed.

End BindProperties.

(** ** The further properties at the sample data *)

Lemma processNextWorkItem_settles_witness :
  calls (WorkQueue
           (processNextWorkItem "trace-2" 700000
              (EnqueueKey (mkNamespacedName "prod" "ok") Sample.controller)).2)
    = [CAdd (KeyItem (mkNamespacedName "prod" "ok")); CGet;
       CForget (KeyItem (mkNamespacedName "prod" "ok"));
       CDone (KeyItem (mkNamespacedName "prod" "ok"))].
Proof.
  pose (c := EnqueueKey (mkNamespacedName "prod" "ok") Sample.controller).
  pose (q := match Get (WorkQueue c) with
             | GetItem _ q => q
             | _ => WorkQueue c
             end).
  assert (Get (WorkQueue c) = GetItem (KeyItem (mkNamespacedName "prod" "ok")) q)
    as Hget by (vm_compute; reflexivity).
  destruct (@processNextWorkItem_settles Spy WorkQ.t Spy_reconciler WorkQ_queue
              c (mkNamespacedName "prod" "ok") q "trace-2" 700000
              (mkSpy Sample.failing ["prod/ok"]) None Hget eq_refl)
    as (_ & _ & settle & Hcalls & _ & Hok).
  fold c. rewrite Hcalls, (Hok eq_refl). reflexivity.
Defined.

Lemma processNextWorkItem_stops_on_shutdown_witness :
  (processNextWorkItem "trace-3" 0 Fixture.stopped).1 = Return false.
Proof.
  destruct (processNextWorkItem_stops_on_shutdown Fixture.stopped "trace-3" 0)
    as [Hiff _].
  apply Hiff. eexists. vm_compute. reflexivity.
Defined.

Lemma processNextWorkItem_panics_witness :
  seen (Reconciler (processNextWorkItem "trace-4" 0 Fixture.polluted).2) = [] /\
  calls (WorkQueue (processNextWorkItem "trace-4" 0 Fixture.polluted).2)
    = [CAdd (RawItem "42"); CGet].
Proof.
  pose (q := match Get (WorkQueue Fixture.polluted) with
             | GetItem _ q => q
             | _ => WorkQueue Fixture.polluted
             end).
  assert (Get (WorkQueue Fixture.polluted) = GetItem (RawItem "42") q)
    as Hget by (vm_compute; reflexivity).
  destruct (processNextWorkItem_panics_on_foreign_item Fixture.polluted "42" q
              "trace-4" 0 Hget) as [_ ->].
  split; vm_compute; reflexivity.
Defined.

Lemma processNextWorkItem_log_fields_witness :
  attached
    (logger (processNextWorkItem "trace-1" 1500000
               (EnqueueKey (mkNamespacedName "prod" "web")
                  Sample.controller)).2)
  = [].
Proof.
  pose (c := EnqueueKey (mkNamespacedName "prod" "web") Sample.controller).
  pose (q := match Get (WorkQueue c) with
             | GetItem _ q => q
             | _ => WorkQueue c
             end).
  assert (Get (WorkQueue c) = GetItem (KeyItem (mkNamespacedName "prod" "web")) q)
    as Hget by (vm_compute; reflexivity).
  destruct (processNextWorkItem_log_fields c (mkNamespacedName "prod" "web") q
              "trace-1" 1500000 Hget) as [Hatt _].
  fold c. rewrite Hatt. reflexivity.
Defined.

Lemma enqueue_unresolved_witness :
  WorkQueue (Enqueue (AnOther "a string") Sample.controller)
    = WorkQueue Sample.controller /\
  WorkQueue (EnqueueControllerOf
               (DeletedFinalStateUnknown "prod/x" (AnOther "a string"))
               Sample.controller)
    = WorkQueue Sample.controller.
Proof.
  split.
  - destruct (enqueue_unresolved (R := Spy) (W := Traced WorkQ.t)
                (AnOther "a string") _ eq_refl) as (Henq & _).
    apply Henq.
  - destruct (enqueue_unresolved (R := Spy) (W := Traced WorkQ.t)
                (DeletedFinalStateUnknown "prod/x" (AnOther "a string")) _
                eq_refl) as (_ & _ & Hctl & _).
    apply Hctl.
Defined.

Lemma EnqueueLabel_namespace_label_witness :
  calls (WorkQueue
           (EnqueueLabelOfNamespaceScopedResource "parent-ns" "parent"
              (AnObject Sample.pod) Sample.controller))
    = [CAdd (KeyItem (mkNamespacedName "routing" "web-route"))] /\
  WorkQueue (EnqueueLabelOfNamespaceScopedResource "team" "parent"
               (AnObject Sample.pod) Sample.controller)
    = WorkQueue Sample.controller.
Proof.
  split.
  - destruct (EnqueueLabel_namespace_label_cases Sample.controller
                "parent-ns" "parent" (AnObject Sample.pod) Sample.pod eq_refl)
      as [Hboth _]; [discriminate|].
    apply (Hboth "routing" "web-route"); vm_compute; reflexivity.
  - destruct (EnqueueLabel_namespace_label_cases Sample.controller
                "team" "parent" (AnObject Sample.pod) Sample.pod eq_refl)
      as [_ Hmissing]; [discriminate|].
    apply Hmissing. right. vm_compute. reflexivity.
Defined.

Lemma EnqueueLabel_cluster_scoped_witness :
  calls (WorkQueue
           (EnqueueLabelOfClusterScopedResource "parent"
              (AnObject Sample.pod) Sample.controller))
    = [CAdd (KeyItem (mkNamespacedName "" "web-route"))].
Proof.
  destruct (EnqueueLabel_cluster_scoped Sample.controller "parent"
              (AnObject Sample.pod) Sample.pod eq_refl) as [Hlabel _].
  destruct (Hlabel "web-route") as [Hcalls _];
    [vm_compute; reflexivity|exact Hcalls].
Defined.

Lemma Filter_then_EnqueueControllerOf_witness :
  calls (WorkQueue
           (deliver (HandleAll EnqueueControllerOf)
              (Updated (AnOther "stale") (AnObject Sample.pod))
              Sample.controller))
    = [CAdd (KeyItem (mkNamespacedName "prod" "web-7f9c"))].
Proof.
  destruct (Filter_then_EnqueueControllerOf (R := Spy) (W := WorkQ.t)
              Fixture.replicaSet (AnObject Sample.pod))
    as (object & owner & Hobj & Howner & _ & _ & _ & Hcalls);
    [vm_compute; reflexivity|].
  injection Hobj as <-.
  assert (owner = metav1.mkOwnerReference "apps/v1" "ReplicaSet" "web-7f9c"
                    (Some true)) as -> by (cbv in Howner; congruence).
  rewrite (Hcalls (Updated (AnOther "stale") (AnObject Sample.pod))
             Sample.controller eq_refl).
  reflexivity.
Defined.

Lemma filters_accept_objects_only_witness :
  FilterWithName "web-7f9c-abcde" (AnObject Sample.pod) = true.
Proof.
  destruct (filters_accept_objects_only "prod" "web-7f9c-abcde"
              (AnObject Sample.pod)) as (Hiff & Himp & _).
  apply Himp, Hiff. exists Sample.pod. repeat split.
Defined.

Lemma BindHandler_lookup_failure_witness :
  scheduler.BindHandler Fixture.pvcNames
    (scheduler.mkExtenderBindingArgs "db-0" "prod" "uid-1" "node-9")
    Fixture.extender
  = (Fixture.extender,
     scheduler.mkExtenderBindingResult "localvolume not found").
Proof.
  apply (BindHandler_lookup_failure Fixture.pvcNames
           (scheduler.mkExtenderBindingArgs "db-0" "prod" "uid-1" "node-9")
           Fixture.extender (errorString "localvolume not found")).
  right. split; [eexists|]; vm_compute; reflexivity.
Defined.

Lemma bind_sends_preallocation_witness :
  scheduler.requests
    (scheduler.client
       (scheduler.bind Fixture.pvcNames Fixture.request Fixture.extender).1)
  = [scheduler.UpdateStatusRequest "default" Fixture.updatedVolume].
Proof.
  destruct (bind_sends_preallocation Fixture.pvcNames Fixture.request
              Fixture.extender
              (scheduler.mkPod ("prod", "db-0")
                 [("data", "data-db-0"); ("wal", "wal-db-0")])
              (scheduler.mkLocalVolume "node-1"
                 (Some {[ "wal-db-0" := "vg0"; "old" := "vg1" ]})
                 [("capacity", "100Gi")]))
    as (sent & m & Hreq & _); [vm_compute; reflexivity..|].
  vm_compute. reflexivity.
Defined.

Lemma BindHandler_requests_witness :
  scheduler.ResultError
    (scheduler.BindHandler Fixture.pvcNames Fixture.request Fixture.extender).2
  = "".
Proof.
  destruct (BindHandler_requests Fixture.pvcNames Fixture.request
              Fixture.extender
              (scheduler.mkPod ("prod", "db-0")
                 [("data", "data-db-0"); ("wal", "wal-db-0")])
              (scheduler.mkLocalVolume "node-1"
                 (Some {[ "wal-db-0" := "vg0"; "old" := "vg1" ]})
                 [("capacity", "100Gi")]))
    as (sent & Hcase); [vm_compute; reflexivity..|].
  cbn in Hcase. apply Hcase.
Defined.

Lemma bind_idempotent_witness :
  scheduler.requests
    (scheduler.client
       (scheduler.bind Fixture.pvcNames Fixture.request
          Fixture.extenderAfter).1)
  = [scheduler.UpdateStatusRequest "default" Fixture.updatedVolume].
Proof.
  apply (bind_idempotent Fixture.pvcNames Fixture.request Fixture.extender
           Fixture.extenderAfter
           (scheduler.mkPod ("prod", "db-0")
              [("data", "data-db-0"); ("wal", "wal-db-0")])
           (scheduler.mkLocalVolume "node-1"
              (Some {[ "wal-db-0" := "vg0"; "old" := "vg1" ]})
              [("capacity", "100Gi")])
           Fixture.updatedVolume);
    vm_compute; reflexivity.
Defined.
